(** * Robustness checkers and fault-injection wrappers of etcd

    A shallow embedding of

    - [CheckHashKV], the cross-member hash verifier, in its error-returning
      form (package [client], with the [getHashKV] helper) and in its
      [testing.T] form (tests/robustness/client/kvhash.go);
    - [checkKVHash] and [ClusterKVHashChecks], the per-member watch worker
      and the checker that starts the workers and the distributor;
    - the hijacked request body and response writer of package [rafthttp].

    Revisions are Go [int64] values, held in [Z]; the only arithmetic on
    them, [lastRevision+1], is written with its wrap-around. *)

From Stdlib Require Import ZArith Lia.
From stdpp Require Import list strings.

Open Scope Z_scope.

(** ** Errors, panics and the record of RPC calls *)

(** A Go call that can return a value, return an error (or fail the test
    through [require]), or panic at run time. *)
Inductive outcome (E A : Type) : Type :=
| Done (a : A)
| Raise (e : E)
| Panic.
Arguments Done {E A} a.
Arguments Raise {E A} e.
Arguments Panic {E A}.

(** Reply of the [HashKV] RPC: [Header.Revision], [Hash], [CompactRevision]
    and [HashRevision] of [clientv3.HashKVResponse]. *)
Record HashKVResponse : Type := mkHashKV {
  HeaderRevision : Z;
  Hash : Z;
  CompactRevision : Z;
  HashRevision : Z
}.

(** One [HashKV] call: the endpoint it was sent to and the revision asked. *)
Definition Probe : Type := string * Z.

(** The world outside the verifier: whether [clientv3.New] fails for a list
    of endpoints, and what the [k]-th [HashKV] call of a pass returns when it
    is sent to endpoint [ep] for revision [rev] ([inl] is the RPC error). *)
Record Env : Type := mkEnv {
  NewClient : list string -> option string;
  HashKVReply : nat -> string -> Z -> string + HashKVResponse
}.

(** [e2e.EtcdProcess] and [e2e.EtcdProcessCluster], reduced to what the
    verifier reads: the members, each member's gRPC endpoints, and the
    endpoints of the cluster as a whole. *)
Record EtcdProcess : Type := mkProc { EndpointsGRPC : list string }.
Record EtcdProcessCluster : Type := mkCluster {
  Procs : list EtcdProcess;
  ClusEndpointsGRPC : list string
}.

(** Computations that issue RPC calls: the calls made so far are threaded
    through, and the computation stops at the first error or panic. *)
Definition M (E A : Type) : Type := list Probe -> outcome E A * list Probe.

Definition ret {E A} (a : A) : M E A := fun log => (Done a, log).
Definition raise {E A} (e : E) : M E A := fun log => (Raise e, log).
Definition panic {E A} : M E A := fun log => (Panic, log).
Definition bind {E A B} (m : M E A) (k : A -> M E B) : M E B :=
  fun log =>
    match m log with
    | (Done a, log') => k a log'
    | (Raise e, log') => (Raise e, log')
    | (Panic, log') => (Panic, log')
    end.

Declare Scope rpc_scope.
Delimit Scope rpc_scope with rpc.
Notation "x <- m ;; k" := (bind m (fun x => k))
  (at level 100, m at next level, right associativity) : rpc_scope.
Open Scope rpc_scope.

(** [s[0]] on a Go slice: a run-time panic when the slice is empty. *)
Definition index0 {E A} (s : list A) : M E A :=
  match s !! 0%nat with
  | Some a => ret a
  | None => panic
  end.

(** [c.HashKV(ctx, endpoint, rev)]: the call is recorded and answered by the
    environment. *)
Definition callHashKV (env : Env) (endpoint : string) (rev : Z)
  : M string HashKVResponse :=
  fun log =>
    (match HashKVReply env (length log) endpoint rev with
     | inl err => Raise err
     | inr resp => Done resp
     end, log ++ [(endpoint, rev)]).

(** Re-tag the error of a computation. *)
Definition mapErr {E E' A} (f : E -> E') (m : M E A) : M E' A :=
  fun log =>
    match m log with
    | (Done a, log') => (Done a, log')
    | (Raise e, log') => (Raise (f e), log')
    | (Panic, log') => (Panic, log')
    end.

(** ** The error-returning verifier *)

Module Verifier.

(** The [error] values [CheckHashKV] can return. *)
Inductive error : Type :=
| RPCError (err : string)
    (* an error of [clientv3.New] or [c.HashKV], returned as it is *)
| MaxRevisionMismatch (want got : Z)
    (* "max revision between nodes should be the same. Want %v, get %v" *)
| HashRevisionMismatch      (* "hashRevision mismatch" *)
| CompactRevisionMismatch   (* "compactRevision mismatch" *)
| HashMismatch.             (* "hash mismatch" *)

(** The errors raised while probing, as opposed to those of the comparison. *)
Definition is_RPCFailure (e : error) : bool :=
  match e with
  | RPCError _ | MaxRevisionMismatch _ _ => true
  | _ => false
  end.

Definition getHashKV (env : Env) (endpoint : string) (rev : Z)
  : M error HashKVResponse :=
  mapErr RPCError (callHashKV env endpoint rev).

(** [if rev == 0 { ... }]: the probe that fixes the revision. Returns the
    revision to use and the initial [hashKVs]. *)
Definition resolveRevision (env : Env) (clus : EtcdProcessCluster) (rev : Z)
  : M error (Z * list HashKVResponse) :=
  if rev =? 0 then
    ep <- index0 (ClusEndpointsGRPC clus) ;;
    hashKV <- getHashKV env ep rev ;;
    ret (HeaderRevision hashKV, [hashKV])
  else ret (rev, []).

(** [for _, member := range clus.Procs { ... }] *)
Fixpoint probeMembers (env : Env) (members : list EtcdProcess) (rev : Z)
    (hashKVs : list HashKVResponse) : M error (list HashKVResponse) :=
  match members with
  | [] => ret hashKVs
  | member :: rest =>
      ep <- index0 (EndpointsGRPC member) ;;
      hashKV <- getHashKV env ep rev ;;
      if negb (HeaderRevision hashKV =? rev)
      then raise (MaxRevisionMismatch rev (HeaderRevision hashKV))
      else probeMembers env rest rev (hashKVs ++ [hashKV])
  end.

(** [for i := 1; i < len(clus.Procs); i++ { ... }], with [iters] the number
    of iterations still to run. *)
Fixpoint compareFrom (hashKVs : list HashKVResponse) (i iters : nat)
  : outcome error unit :=
  match iters with
  | O => Done tt
  | S iters' =>
      match hashKVs !! (i - 1)%nat, hashKVs !! i with
      | Some a, Some b =>
          if negb (HashRevision a =? HashRevision b) then Raise HashRevisionMismatch
          else if negb (CompactRevision a =? CompactRevision b) then Raise CompactRevisionMismatch
          else if negb (Hash a =? Hash b) then Raise HashMismatch
          else compareFrom hashKVs (S i) iters'
      | _, _ => Panic
      end
  end.

Definition compareHashKVs (n : nat) (hashKVs : list HashKVResponse)
  : outcome error unit :=
  compareFrom hashKVs 1 (n - 1).

Definition CheckHashKV (env : Env) (clus : EtcdProcessCluster) (rev : Z)
  : M error unit :=
  match NewClient env (ClusEndpointsGRPC clus) with
  | Some err => raise (RPCError err)
  | None =>
      fixed <- resolveRevision env clus rev ;;
      hashKVs <- probeMembers env (Procs clus) fixed.1 fixed.2 ;;
      fun log => (compareHashKVs (length (Procs clus)) hashKVs, log)
  end.

(** *** Notions used to state the properties *)

(** The endpoint a member is probed at, [member.EndpointsGRPC()[0]]. *)
Definition firstEndpoint (m : EtcdProcess) : string :=
  default ""%string (head (EndpointsGRPC m)).

(** The probes of the first [k] members at revision [rev]. *)
Definition memberProbes (members : list EtcdProcess) (rev : Z) (k : nat)
  : list Probe :=
  (λ m, (firstEndpoint m, rev)) <$> take k members.

(** Member [j] was probed as call number [base + j] and replied with a
    header revision equal to the revision asked. *)
Definition caughtUp (env : Env) (members : list EtcdProcess) (rev : Z)
    (base j : nat) : Prop :=
  exists m r,
    members !! j = Some m /\
    HashKVReply env (base + j) (firstEndpoint m) rev = inr r /\
    HeaderRevision r = rev.

(** Two replies agree on the three compared fields. *)
Definition agree (a b : HashKVResponse) : Prop :=
  HashRevision a = HashRevision b /\
  CompactRevision a = CompactRevision b /\
  Hash a = Hash b.

(** The first of the three fields on which two replies differ, as the error
    the comparison returns for it. *)
Definition mismatch (a b : HashKVResponse) : option error :=
  if negb (HashRevision a =? HashRevision b) then Some HashRevisionMismatch
  else if negb (CompactRevision a =? CompactRevision b) then Some CompactRevisionMismatch
  else if negb (Hash a =? Hash b) then Some HashMismatch
  else None.

(** [rs] are the replies of the members, probed one after the other from
    call number [base] on at revision [rev], each with [rev] in its header. *)
Definition repliesOf (env : Env) (members : list EtcdProcess) (rev : Z)
    (base : nat) (rs : list HashKVResponse) : Prop :=
  length rs = length members /\
  forall j m, members !! j = Some m ->
    exists r, rs !! j = Some r /\
      HashKVReply env (base + j) (firstEndpoint m) rev = inr r /\
      HeaderRevision r = rev.

End Verifier.

(** ** The [testing.T] verifier of kvhash.go *)

Module VerifierT.

(** How a [require] assertion stops the test. *)
Inductive failure : Type :=
| NoErrorFailed (err : string)   (* [require.NoError] *)
| LenFailed (len : nat)          (* [require.Lenf(t, resp, 1, ...)] *)
| EqualFailed (msg : string).    (* [require.Equalf], with its message *)

Definition requireNoError {A} (m : M string A) : M failure A :=
  mapErr NoErrorFailed m.

Definition requireLen {A} (l : list A) (n : nat) : M failure unit :=
  if (length l =? n)%nat then ret tt else raise (LenFailed (length l)).

Definition requireEqual (a b : Z) (msg : string) : outcome failure unit :=
  if a =? b then Done tt else Raise (EqualFailed msg).

(** [clientv3.New(...)] followed by [require.NoError(t, err)]. *)
Definition newClient (env : Env) (endpoints : list string) : M failure unit :=
  match NewClient env endpoints with
  | Some err => raise (NoErrorFailed err)
  | None => ret tt
  end.

(** [for _, ep := range c.Endpoints() { ... }] *)
Fixpoint probeEndpoints (env : Env) (eps : list string) (rev : Z)
    (resp : list HashKVResponse) : M failure (list HashKVResponse) :=
  match eps with
  | [] => ret resp
  | ep :: eps' =>
      hashKV <- requireNoError (callHashKV env ep rev) ;;
      probeEndpoints env eps' rev (resp ++ [hashKV])
  end.

(** The body shared by the two [for i, member := range clus.Procs] loops:
    it returns [resp[0]] once the assertions passed. *)
Definition probeMember (env : Env) (member : EtcdProcess) (rev : Z)
  : M failure HashKVResponse :=
  _ <- newClient env (EndpointsGRPC member) ;;
  resp <- probeEndpoints env (EndpointsGRPC member) rev [] ;;
  _ <- requireLen resp 1 ;;
  index0 resp.

(** First loop: fills [HashKVs] and tracks the maximum [Header.Revision]. *)
Fixpoint firstPass (env : Env) (members : list EtcdProcess) (i : nat) (rev : Z)
    (HashKVs : list (option HashKVResponse)) (maxRevision : Z)
  : M failure (list (option HashKVResponse) * Z) :=
  match members with
  | [] => ret (HashKVs, maxRevision)
  | member :: rest =>
      r0 <- probeMember env member rev ;;
      firstPass env rest (S i) rev (<[i := Some r0]> HashKVs)
        (if maxRevision <? HeaderRevision r0 then HeaderRevision r0
         else maxRevision)
  end.

(** Second loop: probes every member again, at [rev = maxRevision]. *)
Fixpoint secondPass (env : Env) (members : list EtcdProcess) (i : nat) (rev : Z)
    (HashKVs : list (option HashKVResponse))
  : M failure (list (option HashKVResponse)) :=
  match members with
  | [] => ret HashKVs
  | member :: rest =>
      r0 <- probeMember env member rev ;;
      secondPass env rest (S i) rev (<[i := Some r0]> HashKVs)
  end.

(** [HashKVs[i]] followed by a field access: out of range or nil panics. *)
Definition deref (HashKVs : list (option HashKVResponse)) (i : nat)
  : option HashKVResponse :=
  match HashKVs !! i with
  | Some (Some r) => Some r
  | _ => None
  end.

(** [for i := 1; i < len(clus.Procs); i++ { ... }]; the third assertion reads
    [HashKVs[1].Hash], as the source does. *)
Fixpoint compareFrom (HashKVs : list (option HashKVResponse)) (i iters : nat)
  : outcome failure unit :=
  match iters with
  | O => Done tt
  | S iters' =>
      match deref HashKVs (i - 1), deref HashKVs i with
      | Some a, Some b =>
          match requireEqual (HashRevision a) (HashRevision b) "HashRevision mismatch" with
          | Done _ =>
              match requireEqual (CompactRevision a) (CompactRevision b) "CompactRevision mismatch" with
              | Done _ =>
                  match deref HashKVs 1 with
                  | Some c =>
                      match requireEqual (Hash a) (Hash c) "Hash mismatch" with
                      | Done _ => compareFrom HashKVs (S i) iters'
                      | o => o
                      end
                  | None => Panic
                  end
              | o => o
              end
          | o => o
          end
      | _, _ => Panic
      end
  end.

Definition CheckHashKV (env : Env) (clus : EtcdProcessCluster) (rev : Z)
  : M failure unit :=
  let n := length (Procs clus) in
  p <- firstPass env (Procs clus) 0 rev (replicate n None) 0 ;;
  HashKVs <- secondPass env (Procs clus) 0 p.2 p.1 ;;
  fun log => (compareFrom HashKVs 1 (n - 1), log).

End VerifierT.

(** ** The watch worker [checkKVHash] *)

Module Watch.

(** Go's [int64] addition. *)
Definition int64_wrap (z : Z) : Z := (z + 2 ^ 63) mod 2 ^ 64 - 2 ^ 63.
Definition int64_add (a b : Z) : Z := int64_wrap (a + b).

(** A [clientv3.WatchResponse] as the worker reads it: the result of
    [resp.Err()], [resp.Canceled], [resp.CompactRevision], and the
    [Kv.ModRevision] of each event of [resp.Events]. *)
Record WatchResponse : Type := mkResp {
  Err : option string;
  Canceled : bool;
  CompactRevision : Z;
  Events : list Z
}.

(** The calls to [t.Errorf]. *)
Inductive report : Type :=
| MaxRevisionNotSet
    (* "Client didn't collect all events, max revision not set" *)
| RevisionGap (got expected : Z)
    (* "Client didn't collect all events, revision got %d, expected: %d" *)
| WatchStreamError (err : string).
    (* "Watch stream received error, err %v" *)

(** The local variables of [checkKVHash], the state of its context, the
    revision the open watch was started from, what it reported, and whether
    it has returned. *)
Record worker : Type := mkWorker {
  maxRevision : Z;
  lastRevision : Z;
  watchStart : Z;
  cancelCalled : bool;
  parentDone : bool;
  errors : list report;
  returned : bool
}.

Definition set_maxRevision (v : Z) (w : worker) : worker :=
  mkWorker v (lastRevision w) (watchStart w) (cancelCalled w) (parentDone w)
    (errors w) (returned w).
Definition set_lastRevision (v : Z) (w : worker) : worker :=
  mkWorker (maxRevision w) v (watchStart w) (cancelCalled w) (parentDone w)
    (errors w) (returned w).
Definition set_parentDone (w : worker) : worker :=
  mkWorker (maxRevision w) (lastRevision w) (watchStart w) (cancelCalled w) true
    (errors w) (returned w).
Definition set_returned (w : worker) : worker :=
  mkWorker (maxRevision w) (lastRevision w) (watchStart w) (cancelCalled w)
    (parentDone w) (errors w) true.

(** [cancel()] *)
Definition cancel (w : worker) : worker :=
  mkWorker (maxRevision w) (lastRevision w) (watchStart w) true (parentDone w)
    (errors w) (returned w).

(** [t.Errorf(...)]: the test is marked failed and the worker goes on. *)
Definition Errorf (r : report) (w : worker) : worker :=
  mkWorker (maxRevision w) (lastRevision w) (watchStart w) (cancelCalled w)
    (parentDone w) (errors w ++ [r]) (returned w).

(** [watch := c.Watch(ctx, "", lastRevision+1, true, true, false)], the head
    of the [resetWatch] loop. *)
Definition openWatch (w : worker) : worker :=
  mkWorker (maxRevision w) (lastRevision w) (int64_add (lastRevision w) 1)
    (cancelCalled w) (parentDone w) (errors w) (returned w).

(** The worker on entry: [maxRevision = 0], [lastRevision = 1], the first
    watch open. *)
Definition start : worker := openWatch (mkWorker 0 1 0 false false [] false).

(** [ctx.Done()] is ready once [cancel] was called or the parent is done. *)
Definition ctxDone (w : worker) : bool := cancelCalled w || parentDone w.

(** What the worker can meet: the three cases of its [select], and the
    cancellation of the context it was given (deadline or end of test). *)
Inductive event : Type :=
| CtxDone
| Revision (r : option Z)              (* [None]: the channel is closed *)
| WatchResp (r : option WatchResponse) (* [None]: the channel is closed *)
| ParentCancel.

(** [case <-ctx.Done():] *)
Definition onCtxDone (w : worker) : worker :=
  let w1 := if maxRevision w =? 0 then Errorf MaxRevisionNotSet w else w in
  let w2 := if lastRevision w1 <? maxRevision w1
            then Errorf (RevisionGap (lastRevision w1) (maxRevision w1)) w1
            else w1 in
  set_returned (cancel w2).

(** [case revision, ok := <-hashKVRevisionChan:] *)
Definition onRevision (r : option Z) (w : worker) : worker :=
  match r with
  | Some revision =>
      let w1 := set_maxRevision revision w in
      if lastRevision w1 >=? maxRevision w1 then cancel w1 else w1
  | None =>
      if maxRevision w =? 0 then cancel w else w
  end.

(** The end of the [case resp, ok := <-watch:] body, after the error block. *)
Definition onEvents (evs : list Z) (w : worker) : worker :=
  let w1 := match last evs with
            | Some rev => set_lastRevision rev w
            | None => w
            end in
  if negb (maxRevision w1 =? 0) && (lastRevision w1 >=? maxRevision w1)
  then cancel w1 else w1.

(** [case resp, ok := <-watch:] *)
Definition onWatch (r : option WatchResponse) (w : worker) : worker :=
  match r with
  | None => openWatch w
  | Some resp =>
      match Err resp with
      | Some err =>
          if Canceled resp then
            openWatch (if CompactRevision resp >? lastRevision w
                       then set_lastRevision (CompactRevision resp) w
                       else w)
          else onEvents (Events resp) (Errorf (WatchStreamError err) w)
      | None => onEvents (Events resp) w
      end
  end.

(** One step of the worker; [None] when the event cannot happen: the worker
    has returned, or [ctx.Done()] is not ready. *)
Definition step (w : worker) (e : event) : option worker :=
  if returned w then None
  else match e with
       | CtxDone => if ctxDone w then Some (onCtxDone w) else None
       | Revision r => Some (onRevision r w)
       | WatchResp r => Some (onWatch r w)
       | ParentCancel => Some (set_parentDone w)
       end.

Fixpoint run (w : worker) (evs : list event) : option worker :=
  match evs with
  | [] => Some w
  | e :: evs' =>
      match step w e with
      | Some w' => run w' evs'
      | None => None
      end
  end.

(** The target revisions delivered by a sequence of events, in order. *)
Fixpoint targetsOf (evs : list event) : list Z :=
  match evs with
  | [] => []
  | Revision (Some v) :: evs' => v :: targetsOf evs'
  | _ :: evs' => targetsOf evs'
  end.

(** A response that carries an error other than a cancellation. *)
Definition streamError (e : event) : Prop :=
  exists resp err, e = WatchResp (Some resp) /\ Err resp = Some err /\
                   Canceled resp = false.

End Watch.

(** ** The checker [ClusterKVHashChecks] *)

Module Checker.
Import Watch.

(** A Go channel of [int64]: what was sent and not yet received, and whether
    it is closed. *)
Record chan : Type := mkChan { buf : list Z; closed : bool }.

(** [make(chan int64, 100)] *)
Definition memberChanCap : nat := 100.
Definition makeChan : chan := mkChan [] false.

(** [v, ok := <-c]: [None] when the receive blocks. *)
Definition recv (c : chan) : option (option Z * chan) :=
  match buf c with
  | v :: rest => Some (Some v, mkChan rest (closed c))
  | [] => if closed c then Some (None, c) else None
  end.

(** [c <- v] on a channel of capacity [cap]: [None] when the send blocks. *)
Definition send (cap : nat) (c : chan) (v : Z) : option chan :=
  if (length (buf c) <? cap)%nat then Some (mkChan (buf c ++ [v]) (closed c))
  else None.

(** The goroutine that reads [hashKVRevisionChan]: waiting for a revision,
    sending [revision] to [memberHashKVRevisionChans[k]], or past its
    [break]. *)
Inductive distributor : Type :=
| DistRecv
| DistSend (revision : Z) (k : nat)
| DistExit.

(** The goroutines and channels of one call. [received] notes, for each
    worker, the revisions it took from its channel argument. *)
Record checker : Type := mkChecker {
  hashKVRevisionChan : chan;
  memberHashKVRevisionChans : list chan;
  workers : list worker;
  dist : distributor;
  received : list (list Z)
}.

(** The state once the loop over [clus.Procs] has started the [n] workers
    and the distributor; [targets] is what the caller sends on
    [hashKVRevisionChan] before closing it. *)
Definition init (n : nat) (targets : list Z) : checker :=
  mkChecker (mkChan targets true) (replicate n makeChan) (replicate n start)
    DistRecv (replicate n []).

(** The [select] case a worker takes. *)
Inductive selectCase : Type :=
| CaseCtxDone
| CaseRevision
| CaseWatch (r : option WatchResponse).

(** What a scheduler can pick. *)
Inductive action : Type :=
| WorkerSelect (i : nat) (c : selectCase)
| Distribute
| CancelParent.

(** Worker [i] runs [checkKVHash(ctx, t, c, hashKVRevisionChan)]: the
    revision case of its [select] receives from [hashKVRevisionChan]. *)
Definition workerSelect (i : nat) (c : selectCase) (st : checker)
  : option checker :=
  w ← workers st !! i;
  match c with
  | CaseCtxDone =>
      w' ← step w CtxDone;
      Some (mkChecker (hashKVRevisionChan st) (memberHashKVRevisionChans st)
              (<[i := w']> (workers st)) (dist st) (received st))
  | CaseWatch r =>
      w' ← step w (WatchResp r);
      Some (mkChecker (hashKVRevisionChan st) (memberHashKVRevisionChans st)
              (<[i := w']> (workers st)) (dist st) (received st))
  | CaseRevision =>
      '(r, c') ← recv (hashKVRevisionChan st);
      w' ← step w (Revision r);
      Some (mkChecker c' (memberHashKVRevisionChans st)
              (<[i := w']> (workers st)) (dist st)
              (match r with
               | Some v => alter (λ l, l ++ [v]) i (received st)
               | None => received st
               end))
  end.

(** One move of the distributor goroutine. *)
Definition distribute (st : checker) : option checker :=
  match dist st with
  | DistRecv =>
      '(r, c') ← recv (hashKVRevisionChan st);
      Some (mkChecker c' (memberHashKVRevisionChans st) (workers st)
              (match r with
               | Some revision => DistSend revision 0
               | None => DistExit
               end) (received st))
  | DistSend revision k =>
      match memberHashKVRevisionChans st !! k with
      | Some memberChan =>
          memberChan' ← send memberChanCap memberChan revision;
          Some (mkChecker (hashKVRevisionChan st)
                  (<[k := memberChan']> (memberHashKVRevisionChans st))
                  (workers st) (DistSend revision (S k)) (received st))
      | None =>
          Some (mkChecker (hashKVRevisionChan st) (memberHashKVRevisionChans st)
                  (workers st) DistRecv (received st))
      end
  | DistExit => None
  end.

(** The context given to [ClusterKVHashChecks] is cancelled. *)
Definition cancelParent (st : checker) : checker :=
  mkChecker (hashKVRevisionChan st) (memberHashKVRevisionChans st)
    (set_parentDone <$> workers st) (dist st) (received st).

Definition sched_step (st : checker) (a : action) : option checker :=
  match a with
  | WorkerSelect i c => workerSelect i c st
  | Distribute => distribute st
  | CancelParent => Some (cancelParent st)
  end.

Fixpoint exec (st : checker) (sched : list action) : option checker :=
  match sched with
  | [] => Some st
  | a :: sched' =>
      match sched_step st a with
      | Some st' => exec st' sched'
      | None => None
      end
  end.

(** [wg.Wait()] returns: every worker has returned and the distributor is
    past its loop. *)
Definition finished (st : checker) : bool :=
  forallb returned (workers st) &&
  match dist st with DistExit => true | _ => false end.

(** *** Notions used to state the properties *)

(** Targets still in [hashKVRevisionChan] plus targets some worker took. *)
Definition accounted (st : checker) : nat :=
  (length (concat (received st)) + length (buf (hashKVRevisionChan st)))%nat.

Definition membersOpen (st : checker) : Prop :=
  Forall (λ c, closed c = false) (memberHashKVRevisionChans st).

(** The schedule in which the distributor is first to read the only target:
    it forwards it to both member channels and leaves; each worker then
    finds [hashKVRevisionChan] closed and returns. *)
Definition distributorFirst : list action :=
  [Distribute; Distribute; Distribute; Distribute; Distribute;
   WorkerSelect 0 CaseRevision; WorkerSelect 0 CaseCtxDone;
   WorkerSelect 1 CaseRevision; WorkerSelect 1 CaseCtxDone].

(** The member channels once the distributor has read [taken]: each holds
    [taken], except those the revision being forwarded has not reached. *)
Definition forwarded (taken : list Z) (st : checker) : Prop :=
  match dist st with
  | DistSend v j =>
      exists taken', taken = taken' ++ [v] /\
        forall k c, memberHashKVRevisionChans st !! k = Some c ->
          buf c = if (k <? j)%nat then taken else taken'
  | _ =>
      forall k c, memberHashKVRevisionChans st !! k = Some c -> buf c = taken
  end.

(** Of the [targets] sent, [hashKVRevisionChan] holds the rest, and the
    distributor has read some, in order, and forwarded them. *)
Definition fanout (targets : list Z) (st : checker) : Prop :=
  exists pre taken,
    targets = pre ++ buf (hashKVRevisionChan st) /\
    taken `sublist_of` pre /\
    forwarded taken st.

(** The books of the channel: the workers' notes are one per worker; once
    the distributor is past its loop the channel is empty; and of the
    [targets] sent, those no longer in [hashKVRevisionChan] went to the
    distributor, which forwarded them, or to a worker. *)
Definition ledger (targets : list Z) (st : checker) : Prop :=
  length (received st) = length (workers st) /\
  (dist st = DistExit -> buf (hashKVRevisionChan st) = []) /\
  exists pre taken,
    targets = pre ++ buf (hashKVRevisionChan st) /\
    forwarded taken st /\
    length pre = (length taken + length (concat (received st)))%nat.

End Checker.

(** ** The hijacked request body and response writer *)

Module Hijack.

(** The failpoints armed at the moment of a call, by name. The [gofail]
    comment of a method is the code that runs when its failpoint is armed. *)
Definition Failpoints : Type := string -> bool.

Definition DemoDropRequestBodyFailPoint : string :=
  "DemoDropRequestBodyFailPoint".
Definition HijackResponseWriterFailPoint : string :=
  "HijackResponseWriterFailPoint".
Definition HijackResponseWriterHeaderFailPoint : string :=
  "HijackResponseWriterHeaderFailPoint".

Definition disarmed : Failpoints := fun _ => false.
Definition arm (name : string) (fp : Failpoints) : Failpoints :=
  fun n => if decide (n = name) then true else fp n.

(** An [io.ReadCloser] over a stream state [S]. [Read] is given [len(p)] and
    returns the bytes it put in [p] (their number is Go's [n]) and the
    error. *)
Record ReadCloser (S : Type) : Type := mkReadCloser {
  Read : S -> nat -> (list Z * option string) * S;
  Close : S -> option string * S
}.
Arguments Read {S} _ _ _.
Arguments Close {S} _ _.

(** An [http.ResponseWriter] over a connection state [W]; [Flusher] is its
    [http.Flusher] side when it has one. *)
Record ResponseWriter (W : Type) : Type := mkResponseWriter {
  Header : W -> list (string * string);
  Write : W -> list Z -> (nat * option string) * W;
  WriteHeader : W -> Z -> W;
  Flusher : option (W -> W)
}.
Arguments Header {W} _ _.
Arguments Write {W} _ _ _.
Arguments WriteHeader {W} _ _ _.
Arguments Flusher {W} _.

(** The wrappers; [None] is Go's nil interface value. *)
Record hijackedReadCloser (S : Type) : Type := mkHijackedReadCloser {
  originalReadCloser : option (ReadCloser S)
}.
Arguments originalReadCloser {S} _.
Arguments mkHijackedReadCloser {S} _.

Record hijackedResponseWriter (W : Type) : Type := mkHijackedResponseWriter {
  originalResponseWriter : option (ResponseWriter W)
}.
Arguments originalResponseWriter {W} _.
Arguments mkHijackedResponseWriter {W} _.

(** The result of a method call is [None] when the call panics (a method
    called on a nil interface, a failed type assertion). *)

Section ReadCloser.
Context {S : Type}.

Definition discardReadData (rc : option (ReadCloser S)) (p : nat) (s : S)
  : option ((list Z * option string) * S) :=
  match rc with
  | None => None
  | Some rc =>
      let '((_, err), s') := Read rc s p in
      Some (([], err), s')
  end.

Definition hijackedRead (fp : Failpoints) (h : hijackedReadCloser S)
    (p : nat) (s : S) : option ((list Z * option string) * S) :=
  if fp DemoDropRequestBodyFailPoint then
    discardReadData (originalReadCloser h) p s
  else
    match originalReadCloser h with
    | None => Some (([], None), s)
    | Some rc => Some (Read rc s p)
    end.

Definition hijackedClose (h : hijackedReadCloser S) (s : S)
  : option (option string * S) :=
  match originalReadCloser h with
  | None => Some (None, s)
  | Some rc => Some (Close rc s)
  end.

(** [hijackRequestBody]: [r.Body] is replaced by its wrapper. *)
Definition hijackRequestBody (body : option (ReadCloser S))
  : hijackedReadCloser S :=
  mkHijackedReadCloser body.

End ReadCloser.

Section ResponseWriter.
Context {W : Type}.

Definition discardWriteData (p : list Z) : nat * option string := (0%nat, None).

Definition hijackedHeader (h : hijackedResponseWriter W) (w : W)
  : option (list (string * string)) :=
  match originalResponseWriter h with
  | None => None
  | Some rw => Some (Header rw w)
  end.

Definition hijackedWrite (fp : Failpoints) (h : hijackedResponseWriter W)
    (p : list Z) (w : W) : option ((nat * option string) * W) :=
  if fp HijackResponseWriterFailPoint then Some (discardWriteData p, w)
  else
    match originalResponseWriter h with
    | None => Some ((0%nat, None), w)
    | Some rw => Some (Write rw w p)
    end.

Definition hijackedWriteHeader (fp : Failpoints) (h : hijackedResponseWriter W)
    (statusCode : Z) (w : W) : option W :=
  if fp HijackResponseWriterHeaderFailPoint then Some w
  else
    match originalResponseWriter h with
    | None => Some w
    | Some rw => Some (WriteHeader rw w statusCode)
    end.

Definition hijackedFlush (h : hijackedResponseWriter W) (w : W) : option W :=
  match originalResponseWriter h with
  | None => None
  | Some rw =>
      match Flusher rw with
      | None => None
      | Some flush => Some (flush w)
      end
  end.

Definition hijackResponseWriter (w : option (ResponseWriter W))
  : hijackedResponseWriter W :=
  mkHijackedResponseWriter w.

End ResponseWriter.

(** Two concrete streams to run the wrappers on: a request body held in
    memory, which hands out its bytes and then reports [EOF], and a response
    writer that records the status and the bytes it was given. *)
Definition bodyReader : ReadCloser (list Z) :=
  mkReadCloser (list Z)
    (fun s n => match s with
                | [] => (([], Some "EOF"%string), [])
                | _ => ((take n s, None), drop n s)
                end)
    (fun s => (None, s)).

Record recorded : Type := mkRecorded {
  status : option Z;
  body : list Z;
  flushes : nat
}.

Definition recorder : ResponseWriter recorded :=
  mkResponseWriter recorded
    (fun _ => [])
    (fun w p => ((length p, None),
                 mkRecorded (match status w with None => Some 200 | s => s end)
                   (body w ++ p) (flushes w)))
    (fun w code => mkRecorded (match status w with None => Some code | s => s end)
                     (body w) (flushes w))
    (Some (fun w => mkRecorded (status w) (body w) (S (flushes w)))).

(** *** Sequences of calls *)

(** A reader of the request body: one [Read] through the wrapper for each
    buffer length of [ps], in order; [None] as soon as a call panics. *)
Fixpoint hijackedReads {S : Type} (fp : Failpoints) (h : hijackedReadCloser S)
    (ps : list nat) (s : S) : option (list (list Z * option string) * S) :=
  match ps with
  | [] => Some ([], s)
  | p :: ps' =>
      match hijackedRead fp h p s with
      | None => None
      | Some (r, s') =>
          match hijackedReads fp h ps' s' with
          | None => None
          | Some (rs, s'') => Some (r :: rs, s'')
          end
      end
  end.

(** The same reads made on the stream itself. *)
Fixpoint directReads {S : Type} (rc : ReadCloser S) (ps : list nat) (s : S)
  : list (list Z * option string) * S :=
  match ps with
  | [] => ([], s)
  | p :: ps' =>
      let '(r, s') := Read rc s p in
      let '(rs, s'') := directReads rc ps' s' in
      (r :: rs, s'')
  end.

(** What a handler does with its response writer. *)
Inductive call : Type :=
| CallWriteHeader (statusCode : Z)
| CallWrite (p : list Z)
| CallFlush.

(** The calls of [cs] made through the wrapper, in order, with the result of
    each [Write]; [None] as soon as a call panics. *)
Fixpoint hijackedCalls {W : Type} (fp : Failpoints)
    (h : hijackedResponseWriter W) (cs : list call) (w : W)
  : option (list (nat * option string) * W) :=
  match cs with
  | [] => Some ([], w)
  | CallWriteHeader statusCode :: cs' =>
      match hijackedWriteHeader fp h statusCode w with
      | None => None
      | Some w' => hijackedCalls fp h cs' w'
      end
  | CallWrite p :: cs' =>
      match hijackedWrite fp h p w with
      | None => None
      | Some (r, w') =>
          match hijackedCalls fp h cs' w' with
          | None => None
          | Some (rs, w'') => Some (r :: rs, w'')
          end
      end
  | CallFlush :: cs' =>
      match hijackedFlush h w with
      | None => None
      | Some w' => hijackedCalls fp h cs' w'
      end
  end.

(** The same calls made on a writer that flushes with [flush]. *)
Fixpoint directCalls {W : Type} (rw : ResponseWriter W) (flush : W -> W)
    (cs : list call) (w : W) : list (nat * option string) * W :=
  match cs with
  | [] => ([], w)
  | CallWriteHeader statusCode :: cs' =>
      directCalls rw flush cs' (WriteHeader rw w statusCode)
  | CallWrite p :: cs' =>
      let '(r, w') := Write rw w p in
      let '(rs, w'') := directCalls rw flush cs' w' in
      (r :: rs, w'')
  | CallFlush :: cs' => directCalls rw flush cs' (flush w)
  end.

(** Whether a call gets past the failpoints [fp]. *)
Definition passes (fp : Failpoints) (c : call) : bool :=
  match c with
  | CallWriteHeader _ => negb (fp HijackResponseWriterHeaderFailPoint)
  | CallWrite _ => negb (fp HijackResponseWriterFailPoint)
  | CallFlush => true
  end.

(** Every drop failpoint armed. *)
Definition allArmed : Failpoints :=
  arm DemoDropRequestBodyFailPoint
    (arm HijackResponseWriterFailPoint
       (arm HijackResponseWriterHeaderFailPoint disarmed)).

End Hijack.

(** ** Concrete clusters *)

(** A member with the single gRPC endpoint [name]. *)
Definition member (name : string) : EtcdProcess := mkProc [name].

Definition cluster3 : EtcdProcessCluster :=
  mkCluster [member "m0"; member "m1"; member "m2"] ["m0"; "m1"; "m2"]%string.

(** Replies at revision 10: hash 0xCAFE, and the same with hash 0xBEEF. *)
Definition agreed : HashKVResponse := mkHashKV 10 51966 1 10.
Definition diverged : HashKVResponse := mkHashKV 10 48879 1 10.

(** Every call succeeds; the last member alone reports another hash. *)
Definition lastMemberDiverges : Env :=
  mkEnv (fun _ => None)
    (fun _ ep _ => inr (if String.eqb ep "m2" then diverged else agreed)).

(** Every call succeeds and every member reports the same. *)
Definition allAgree : Env :=
  mkEnv (fun _ => None) (fun _ _ _ => inr agreed).

(** Every call succeeds; the second member is still at revision 9. *)
Definition secondMemberBehind : Env :=
  mkEnv (fun _ => None)
    (fun _ ep _ => inr (if String.eqb ep "m1" then mkHashKV 9 51966 1 9
                        else agreed)).

(** * Properties *)

(** ** The watch worker *)

Module WatchSpec.
Import Watch.

Lemma int64_add_small (a b : Z) :
  - 2 ^ 63 <= a + b < 2 ^ 63 -> int64_add a b = a + b.
Proof.
  intros H. unfold int64_add, int64_wrap.
  rewrite Z.mod_small by lia. lia.
Qed.

Lemma step_running (w w' : worker) (e : event) :
  step w e = Some w' -> returned w = false.
Proof. unfold step. destruct (returned w); [discriminate | reflexivity]. Qed.

(** A run in which no target revision arrives leaves [maxRevision] at 0. *)
Lemma step_maxRevision_unset w e w' :
  (forall v, e <> Revision (Some v)) ->
  step w e = Some w' -> maxRevision w' = maxRevision w.
Proof.
  intros Hne Hs. unfold step in Hs. destruct (returned w); [discriminate|].
  destruct e as [ | [v|] | [resp|] | ]; simpl in Hs.
  - destruct (ctxDone w); [|discriminate]. inversion_clear Hs.
    unfold onCtxDone.
    destruct (maxRevision w =? 0); simpl;
      match goal with |- context [if ?b then _ else _] => destruct b end;
      reflexivity.
  - exfalso. by eapply Hne.
  - inversion_clear Hs. destruct (maxRevision w =? 0); reflexivity.
  - inversion_clear Hs. unfold onWatch.
    assert (Hev : forall evs u, maxRevision (onEvents evs u) = maxRevision u).
    { intros evs u. unfold onEvents. destruct (last evs); simpl;
        match goal with |- context [if ?b then _ else _] => destruct b end;
        reflexivity. }
    destruct (Err resp); [destruct (Canceled resp)|]; rewrite ?Hev; simpl;
      try reflexivity.
    destruct (CompactRevision resp >? lastRevision w); reflexivity.
  - inversion_clear Hs. reflexivity.
  - inversion_clear Hs. reflexivity.
Qed.

Lemma run_maxRevision_unset evs : forall w w',
  (forall v, Revision (Some v) ∉ evs) ->
  run w evs = Some w' -> maxRevision w' = maxRevision w.
Proof.
  induction evs as [|e evs IH]; intros w w' Hno Hr; simpl in Hr.
  - by inversion Hr.
  - destruct (step w e) as [w1|] eqn:Hs; [|discriminate].
    rewrite (IH w1 w'); [| |done].
    + eapply step_maxRevision_unset; [|done].
      intros v ->. apply (Hno v). left.
    + intros v Hin. apply (Hno v). by right.
Qed.

(** C6, as stated, fails: a target below the current one lowers
    [maxRevision]. After the target 10, the target 5 leaves 5, not
    [max 10 5]. *)
Lemma onRevision_not_max :
  ~ (forall (w w' : worker) (v : Z),
       step w (Revision (Some v)) = Some w' ->
       maxRevision w' = Z.max (maxRevision w) v).
Proof.
  intros H.
  specialize (H (set_maxRevision 10 start) _ 5 eq_refl).
  vm_compute in H. discriminate.
Qed.

(** C6, amended: after a target revision [v] is received, [maxRevision] is
    [v], the value received last; it is the maximum of its previous value
    and [v] exactly when [v] is not below the previous value. *)
Theorem onRevision_sets_latest_target (w w' : worker) (v : Z) :
  step w (Revision (Some v)) = Some w' ->
  maxRevision w' = v /\
  (maxRevision w' = Z.max (maxRevision w) v <-> maxRevision w <= v).
Proof.
  intros Hs. unfold step in Hs. destruct (returned w); [discriminate|].
  inversion_clear Hs. unfold onRevision. cbv zeta.
  match goal with |- context [if ?b then _ else _] => destruct b end;
    cbn [cancel set_maxRevision maxRevision]; (split; [reflexivity | split; lia]).
Qed.

Lemma onRevision_sets_latest_target_witness :
  maxRevision (onRevision (Some 5) (set_maxRevision 10 start)) = 5 /\
  (maxRevision (onRevision (Some 5) (set_maxRevision 10 start)) = Z.max 10 5 <-> 10 <= 5).
Proof.
  apply (onRevision_sets_latest_target (set_maxRevision 10 start) _ 5).
  reflexivity.
Defined.

(** C3, as stated, fails: a worker that was never given a target and whose
    context is cancelled from outside does report a failure in its final
    check. *)
Lemma cancellation_without_target_reports :
  ~ (forall (evs : list event) (w w' : worker),
       (forall v, Revision (Some v) ∉ evs) ->
       run start evs = Some w ->
       parentDone w = true ->
       step w CtxDone = Some w' ->
       errors w' = errors w).
Proof.
  intros H.
  specialize (H [ParentCancel] (set_parentDone start)
                (onCtxDone (set_parentDone start))).
  assert (Hno : forall v, Revision (Some v) ∉ [ParentCancel]).
  { intros v Hin. apply list_elem_of_singleton in Hin. discriminate. }
  specialize (H Hno eq_refl eq_refl eq_refl).
  vm_compute in H. discriminate.
Qed.

(** C3, amended: when the context of a running worker is cancelled from
    outside, the [ctx.Done()] case runs the final check and returns. The
    check reports "max revision not set" when [maxRevision] is 0, which is
    the case whenever no target revision was delivered; it reports the gap,
    naming the observed and the expected revision, when
    [lastRevision < maxRevision]; and it reports nothing when a non-zero
    target was reached. *)
Theorem final_check_on_cancellation (evs : list event) (w : worker) :
  run start evs = Some w ->
  returned w = false ->
  parentDone w = true ->
  exists w',
    step w CtxDone = Some w' /\
    returned w' = true /\
    errors w' =
      errors w
      ++ (if maxRevision w =? 0 then [MaxRevisionNotSet] else [])
      ++ (if lastRevision w <? maxRevision w
          then [RevisionGap (lastRevision w) (maxRevision w)] else []) /\
    ((forall v, Revision (Some v) ∉ evs) -> MaxRevisionNotSet ∈ errors w') /\
    (maxRevision w <> 0 -> lastRevision w < maxRevision w ->
       errors w' = errors w ++ [RevisionGap (lastRevision w) (maxRevision w)]) /\
    (maxRevision w <> 0 -> lastRevision w >= maxRevision w ->
       errors w' = errors w).
Proof.
  intros Hrun Hret Hpar.
  assert (Herr : errors (onCtxDone w) =
      errors w
      ++ (if maxRevision w =? 0 then [MaxRevisionNotSet] else [])
      ++ (if lastRevision w <? maxRevision w
          then [RevisionGap (lastRevision w) (maxRevision w)] else [])).
  { unfold onCtxDone. cbv zeta.
    destruct (maxRevision w =? 0); cbn [Errorf maxRevision lastRevision];
      destruct (lastRevision w <? maxRevision w);
      cbn [Errorf cancel set_returned errors];
      rewrite <- ?app_assoc, ?app_nil_r; reflexivity. }
  exists (onCtxDone w). split; [|split; [|split; [|split; [|split]]]].
  - unfold step, ctxDone. rewrite Hret, Hpar, orb_true_r. reflexivity.
  - reflexivity.
  - exact Herr.
  - intros Hno. rewrite Herr.
    rewrite (run_maxRevision_unset evs start w Hno Hrun).
    change (maxRevision start =? 0) with true.
    rewrite !elem_of_app. right. left. apply list_elem_of_singleton. reflexivity.
  - intros Hset Hlt. rewrite Herr.
    destruct (Z.eqb_spec (maxRevision w) 0); [contradiction|].
    destruct (Z.ltb_spec (lastRevision w) (maxRevision w)); [reflexivity | lia].
  - intros Hset Hge. rewrite Herr.
    destruct (Z.eqb_spec (maxRevision w) 0); [contradiction|].
    destruct (Z.ltb_spec (lastRevision w) (maxRevision w)); [lia|].
    by rewrite app_nil_r.
Qed.

Lemma final_check_on_cancellation_witness :
  exists w',
    step (set_parentDone (onRevision (Some 15) start)) CtxDone = Some w' /\
    returned w' = true /\
    errors w' = [RevisionGap 1 15].
Proof.
  destruct (final_check_on_cancellation
              [Revision (Some 15); ParentCancel]
              (set_parentDone (onRevision (Some 15) start))
              eq_refl eq_refl eq_refl)
    as (w' & Hs & Hr & He & _).
  exists w'. split; [exact Hs | split; [exact Hr | exact He]].
Defined.

(** C7: in any run of the worker, a step on which the worker calls
    [cancel] itself and goes on running finds, whenever a target is set
    ([maxRevision <> 0]), that [lastRevision >= maxRevision]; and a step on
    which the worker returns without reporting anything in its final check
    finds a target set and [lastRevision >= maxRevision]. *)
Theorem done_only_at_required_revision
    (evs : list event) (w w' : worker) (e : event) :
  run start evs = Some w ->
  step w e = Some w' ->
  (cancelCalled w = false -> cancelCalled w' = true -> returned w' = false ->
     maxRevision w' <> 0 -> lastRevision w' >= maxRevision w') /\
  (returned w' = true -> errors w' = errors w ->
     maxRevision w' <> 0 /\ lastRevision w' >= maxRevision w').
Proof.
  intros _ Hs. pose proof (step_running _ _ _ Hs) as Hrun.
  unfold step in Hs. rewrite Hrun in Hs.
  destruct e as [ | [v|] | [resp|] | ]; simpl in Hs.
  - (* ctx.Done() *)
    destruct (ctxDone w); [|discriminate]. injection Hs as <-.
    split; [intros _ _ Hr; discriminate|].
    intros _ He. revert He. unfold onCtxDone. cbv zeta.
    destruct (Z.eqb_spec (maxRevision w) 0) as [Hz|Hz];
      cbn [Errorf maxRevision lastRevision];
      destruct (Z.ltb_spec (lastRevision w) (maxRevision w)) as [Hl|Hl];
      cbn [Errorf cancel set_returned errors maxRevision lastRevision];
      intros He.
    + apply (f_equal length) in He. rewrite !length_app in He. simpl in He. lia.
    + apply (f_equal length) in He. rewrite !length_app in He. simpl in He. lia.
    + apply (f_equal length) in He. rewrite !length_app in He. simpl in He. lia.
    + split; [exact Hz | lia].
  - (* a target revision *)
    injection Hs as <-.
    destruct (Z.geb_spec (lastRevision w) v) as [Hge|Hlt];
      cbn [cancel set_maxRevision cancelCalled returned maxRevision lastRevision].
    + split; [intros; lia | intros Hr; congruence].
    + split; [intros Hc Hc'; congruence | intros Hr; congruence].
  - (* the revision channel is closed *)
    injection Hs as <-.
    destruct (Z.eqb_spec (maxRevision w) 0) as [Hz|Hz];
      cbn [cancel cancelCalled returned maxRevision lastRevision].
    + split; [intros; contradiction | intros Hr; congruence].
    + split; [intros Hc Hc'; congruence | intros Hr; congruence].
  - (* a watch response *)
    injection Hs as <-.
    assert (Hev : forall evs u,
      returned (onEvents evs u) = returned u /\
      (cancelCalled u = false -> cancelCalled (onEvents evs u) = true ->
       maxRevision (onEvents evs u) <> 0 /\
       lastRevision (onEvents evs u) >= maxRevision (onEvents evs u))).
    { intros evs' u. unfold onEvents. cbv zeta.
      set (u1 := match last evs' with Some rev => set_lastRevision rev u | None => u end).
      assert (Hc1 : cancelCalled u1 = cancelCalled u /\ returned u1 = returned u)
        by (subst u1; destruct (last evs'); split; reflexivity).
      destruct Hc1 as [Hc1 Hr1].
      destruct (Z.eqb_spec (maxRevision u1) 0) as [Hz|Hz];
        destruct (Z.geb_spec (lastRevision u1) (maxRevision u1)) as [Hge|Hlt];
        cbn [negb andb cancel cancelCalled returned maxRevision lastRevision];
        (split; [exact Hr1 | intros Hc Hc'; try congruence]).
      split; [exact Hz | lia]. }
    unfold onWatch.
    destruct (Err resp) as [err|]; [destruct (Canceled resp)|].
    + cbn [openWatch cancelCalled returned].
      destruct (CompactRevision resp >? lastRevision w);
        cbn [set_lastRevision cancelCalled returned];
        (split; [intros Hc Hc'; congruence | intros Hr; congruence]).
    + destruct (Hev (Events resp) (Errorf (WatchStreamError err) w)) as [Hr Hc].
      split.
      * intros Hc0 Hc1 _ _. apply Hc; [exact Hc0 | exact Hc1].
      * intros Hr'. rewrite Hr in Hr'. cbn in Hr'. congruence.
    + destruct (Hev (Events resp) w) as [Hr Hc].
      split.
      * intros Hc0 Hc1 _ _. apply Hc; [exact Hc0 | exact Hc1].
      * intros Hr'. rewrite Hr in Hr'. congruence.
  - (* the watch channel is closed *)
    injection Hs as <-.
    cbn [openWatch cancelCalled returned].
    split; [intros Hc Hc'; congruence | intros Hr; congruence].
  - (* cancellation from outside *)
    injection Hs as <-.
    cbn [set_parentDone cancelCalled returned].
    split; [intros Hc Hc'; congruence | intros Hr; congruence].
Qed.

Lemma done_only_at_required_revision_witness :
  lastRevision (onWatch (Some (mkResp None false 0 [3; 5])) (onRevision (Some 5) start)) >=
  maxRevision (onWatch (Some (mkResp None false 0 [3; 5])) (onRevision (Some 5) start)).
Proof.
  refine (proj1 (done_only_at_required_revision
                   [Revision (Some 5)] (onRevision (Some 5) start)
                   (onWatch (Some (mkResp None false 0 [3; 5])) (onRevision (Some 5) start))
                   (WatchResp (Some (mkResp None false 0 [3; 5])))
                   eq_refl eq_refl) eq_refl eq_refl eq_refl _).
  vm_compute. discriminate.
Defined.

(** C8: when the watch reports an error with [Canceled] set, the worker
    raises [lastRevision] to the compaction revision if that is greater than
    [lastRevision], opens a new watch from [lastRevision + 1] and reports
    nothing; so a compaction revision above [lastRevision] becomes the new
    [lastRevision], and a watch cancelled at revision 8 with compaction
    revision 6 resumes from revision 9. *)
Theorem compaction_cancel_resumes_watch
    (w w' : worker) (resp : WatchResponse) (err : string) :
  Err resp = Some err ->
  Canceled resp = true ->
  step w (WatchResp (Some resp)) = Some w' ->
  (CompactRevision resp > lastRevision w ->
     lastRevision w' = CompactRevision resp) /\
  lastRevision w' = Z.max (lastRevision w) (CompactRevision resp) /\
  watchStart w' = int64_add (lastRevision w') 1 /\
  (- 2 ^ 63 <= lastRevision w' < 2 ^ 63 - 1 ->
     watchStart w' = lastRevision w' + 1) /\
  (lastRevision w = 8 -> CompactRevision resp = 6 -> watchStart w' = 9) /\
  errors w' = errors w /\
  maxRevision w' = maxRevision w /\
  cancelCalled w' = cancelCalled w /\
  returned w' = false.
Proof.
  intros He Hc Hs. pose proof (step_running _ _ _ Hs) as Hrun.
  unfold step in Hs. rewrite Hrun in Hs. injection Hs as <-.
  unfold onWatch. rewrite He, Hc.
  assert (Hlast : lastRevision
            (openWatch (if CompactRevision resp >? lastRevision w
                        then set_lastRevision (CompactRevision resp) w else w))
          = Z.max (lastRevision w) (CompactRevision resp)).
  { destruct (Z.gtb_spec (CompactRevision resp) (lastRevision w));
      cbn [openWatch set_lastRevision lastRevision]; lia. }
  assert (Hstart : watchStart
            (openWatch (if CompactRevision resp >? lastRevision w
                        then set_lastRevision (CompactRevision resp) w else w))
          = int64_add (Z.max (lastRevision w) (CompactRevision resp)) 1).
  { destruct (Z.gtb_spec (CompactRevision resp) (lastRevision w));
      cbn [openWatch set_lastRevision lastRevision watchStart];
      f_equal; lia. }
  rewrite Hlast, Hstart.
  repeat split.
  - lia.
  - intros Hr. apply int64_add_small. lia.
  - intros H8 H6. rewrite H8, H6. reflexivity.
  - destruct (CompactRevision resp >? lastRevision w); reflexivity.
  - destruct (CompactRevision resp >? lastRevision w); reflexivity.
  - destruct (CompactRevision resp >? lastRevision w); reflexivity.
  - destruct (CompactRevision resp >? lastRevision w); cbn; exact Hrun.
Qed.

Lemma compaction_cancel_resumes_watch_witness :
  watchStart (onWatch (Some (mkResp (Some "compacted"%string) true 6 []))
                (set_lastRevision 8 start)) = 9.
Proof.
  refine (proj1 (proj2 (proj2 (proj2 (proj2
    (compaction_cancel_resumes_watch (set_lastRevision 8 start) _
       (mkResp (Some "compacted"%string) true 6 []) "compacted"
       eq_refl eq_refl eq_refl))))) eq_refl eq_refl).
Defined.

End WatchSpec.

(** ** The hijacked streams *)

Module HijackSpec.
Import Hijack.

(** C4, as stated, fails: an armed read hands the error of the underlying
    read to the handler. On a request body that is exhausted the armed read
    returns [EOF], not "no error". *)
Lemma armed_read_returns_underlying_error :
  ~ (forall (S : Type) (rc : ReadCloser S) (fp : Failpoints) (p : nat) (s : S),
       fp DemoDropRequestBodyFailPoint = true ->
       exists s', hijackedRead fp (hijackRequestBody (Some rc)) p s
                  = Some (([], None), s')).
Proof.
  intros H.
  destruct (H (list Z) bodyReader (arm DemoDropRequestBodyFailPoint disarmed)
              4%nat [] eq_refl) as [s' Hs'].
  vm_compute in Hs'. discriminate.
Qed.

(** C4, amended: with the drop failpoints armed, a read calls the
    underlying [Read] once with a buffer of the requested length, leaves the
    underlying stream where that read left it, delivers no bytes and returns
    the error of the underlying read unchanged; on an in-memory body that is
    not exhausted this drains the requested bytes and returns no error. A
    write returns [0, nil] and a header write returns, and neither reaches
    the underlying writer. *)
Theorem armed_wrappers_discard
    (S W : Type) (fp : Failpoints)
    (rc : ReadCloser S) (h : hijackedResponseWriter W)
    (p : nat) (s : S) (data : list Z) (statusCode : Z) (w : W) :
  fp DemoDropRequestBodyFailPoint = true ->
  fp HijackResponseWriterFailPoint = true ->
  fp HijackResponseWriterHeaderFailPoint = true ->
  hijackedRead fp (hijackRequestBody (Some rc)) p s
    = Some (([], (Read rc s p).1.2), (Read rc s p).2) /\
  (forall b : list Z, b <> [] ->
     hijackedRead fp (hijackRequestBody (Some bodyReader)) p b
       = Some (([], None), drop p b)) /\
  hijackedWrite fp h data w = Some ((0%nat, None), w) /\
  hijackedWriteHeader fp h statusCode w = Some w.
Proof.
  intros Hr Hw Hh. unfold hijackedRead, hijackedWrite, hijackedWriteHeader.
  rewrite Hr, Hw, Hh. cbn [hijackRequestBody originalReadCloser discardReadData].
  repeat split.
  - destruct (Read rc s p) as [[d e] s']. reflexivity.
  - intros b Hb. destruct b as [|x b]; [contradiction | reflexivity].
Qed.

Lemma armed_wrappers_discard_witness :
  hijackedRead allArmed (hijackRequestBody (Some bodyReader)) 2 [10; 20; 30]
    = Some (([], None), [30]) /\
  hijackedWrite allArmed (hijackResponseWriter (Some recorder)) [1; 2; 3]
    (mkRecorded None [] 0) = Some ((0%nat, None), mkRecorded None [] 0) /\
  hijackedWriteHeader allArmed (hijackResponseWriter (Some recorder)) 200
    (mkRecorded None [] 0) = Some (mkRecorded None [] 0).
Proof.
  destruct (armed_wrappers_discard (list Z) recorded allArmed bodyReader
              (hijackResponseWriter (Some recorder)) 2 [10; 20; 30] [1; 2; 3]
              200 (mkRecorded None [] 0) eq_refl eq_refl eq_refl)
    as (Hread & _ & Hwrite & Hheader).
  split; [exact Hread | split; [exact Hwrite | exact Hheader]].
Defined.

(** C9: with the failpoints disarmed, a wrapper over a stream that is
    present does what the stream does: [Read] and [Close] return the result
    of the underlying reader and leave it in the same state; [Write],
    [WriteHeader] and [Header] are those of the underlying writer; [Flush]
    is the underlying flush when the writer has one. *)
Theorem disarmed_wrappers_delegate
    (S W : Type) (fp : Failpoints)
    (rc : ReadCloser S) (rw : ResponseWriter W)
    (p : nat) (s : S) (data : list Z) (statusCode : Z) (w : W) :
  fp DemoDropRequestBodyFailPoint = false ->
  fp HijackResponseWriterFailPoint = false ->
  fp HijackResponseWriterHeaderFailPoint = false ->
  hijackedRead fp (hijackRequestBody (Some rc)) p s = Some (Read rc s p) /\
  hijackedClose (hijackRequestBody (Some rc)) s = Some (Close rc s) /\
  hijackedWrite fp (hijackResponseWriter (Some rw)) data w
    = Some (Write rw w data) /\
  hijackedWriteHeader fp (hijackResponseWriter (Some rw)) statusCode w
    = Some (WriteHeader rw w statusCode) /\
  hijackedHeader (hijackResponseWriter (Some rw)) w = Some (Header rw w) /\
  (forall flush, Flusher rw = Some flush ->
     hijackedFlush (hijackResponseWriter (Some rw)) w = Some (flush w)).
Proof.
  intros Hr Hw Hh.
  unfold hijackedRead, hijackedWrite, hijackedWriteHeader, hijackedClose,
    hijackedHeader, hijackedFlush.
  rewrite Hr, Hw, Hh. cbn.
  repeat split. intros flush ->. reflexivity.
Qed.

Lemma disarmed_wrappers_delegate_witness :
  hijackedRead disarmed (hijackRequestBody (Some bodyReader)) 2 [10; 20; 30]
    = Some (([10; 20], None), [30]) /\
  hijackedWrite disarmed (hijackResponseWriter (Some recorder)) [1; 2; 3]
    (mkRecorded None [] 0)
    = Some ((3%nat, None), mkRecorded (Some 200) [1; 2; 3] 0) /\
  hijackedFlush (hijackResponseWriter (Some recorder)) (mkRecorded None [] 0)
    = Some (mkRecorded None [] 1).
Proof.
  destruct (disarmed_wrappers_delegate (list Z) recorded disarmed bodyReader
              recorder 2 [10; 20; 30] [1; 2; 3] 200 (mkRecorded None [] 0)
              eq_refl eq_refl eq_refl)
    as (Hread & _ & Hwrite & _ & _ & Hflush).
  split; [exact Hread | split; [exact Hwrite | exact (Hflush _ eq_refl)]].
Defined.

(** A wrapper over an absent stream, with the request-body failpoint
    disarmed: every method but [Header] and [Flush] returns without error. *)
Lemma nil_delegate_disarmed
    (S W : Type) (fp : Failpoints) (p : nat) (s : S) (data : list Z)
    (statusCode : Z) (w : W) :
  fp DemoDropRequestBodyFailPoint = false ->
  hijackedRead fp (hijackRequestBody (@None (ReadCloser S))) p s
    = Some (([], None), s) /\
  hijackedClose (hijackRequestBody (@None (ReadCloser S))) s = Some (None, s) /\
  hijackedWrite fp (hijackResponseWriter (@None (ResponseWriter W))) data w
    = Some ((0%nat, None), w) /\
  hijackedWriteHeader fp (hijackResponseWriter (@None (ResponseWriter W)))
    statusCode w = Some w.
Proof.
  intros Hr. unfold hijackedRead, hijackedWrite, hijackedWriteHeader. rewrite Hr.
  repeat split.
  - destruct (fp HijackResponseWriterFailPoint); reflexivity.
  - destruct (fp HijackResponseWriterHeaderFailPoint); reflexivity.
Qed.

(** C10 at its failing input: over an absent request body, a read with
    [DemoDropRequestBodyFailPoint] armed calls [Read] on the nil stream and
    panics, where the same read with the failpoint disarmed returns 0 bytes
    and no error; [Header] on an absent writer panics as well. *)
Theorem armed_read_on_nil_body_panics (S W : Type) (p : nat) (s : S) (w : W) :
  hijackedRead (arm DemoDropRequestBodyFailPoint disarmed)
    (hijackRequestBody (@None (ReadCloser S))) p s = None /\
  hijackedRead disarmed (hijackRequestBody (@None (ReadCloser S))) p s
    = Some (([], None), s) /\
  hijackedHeader (hijackResponseWriter (@None (ResponseWriter W))) w = None.
Proof. repeat split. Qed.

End HijackSpec.

(** ** The checker *)

Module CheckerSpec.
Import Watch Checker.

Lemma recv_length c r c' :
  recv c = Some (r, c') ->
  (length (buf c') + match r with Some _ => 1 | None => 0 end
   = length (buf c))%nat.
Proof.
  unfold recv. destruct (buf c) as [|v rest] eqn:Hb.
  - destruct (closed c); [|discriminate]. intros [= <- <-]. by rewrite Hb.
  - intros [= <- <-]. simpl. lia.
Qed.


Lemma concat_alter_snoc_length (v : Z) (rs : list (list Z)) : forall i,
  (length (concat (alter (λ l, l ++ [v]) i rs)) <= S (length (concat rs)))%nat.
Proof.
  induction rs as [|r rs IH]; intros [|i]; cbn [alter list_alter concat];
    rewrite ?length_app; cbn [length]; try lia.
  specialize (IH i). lia.
Qed.

Lemma send_open cap c v c' :
  send cap c v = Some c' -> closed c' = closed c.
Proof.
  unfold send. destruct (length (buf c) <? cap)%nat; [|discriminate].
  by intros [= <-].
Qed.

(** No step puts a target back, and no step closes a member channel. *)
Lemma sched_step_inv st a st' :
  sched_step st a = Some st' ->
  (accounted st' <= accounted st)%nat /\ (membersOpen st -> membersOpen st').
Proof.
  unfold accounted, membersOpen. destruct a as [i c | | ]; simpl.
  - unfold workerSelect. destruct (workers st !! i) as [w|]; simpl; [|discriminate].
    destruct c as [ | | r].
    + destruct (step w CtxDone); simpl; [|discriminate].
      intros [= <-]. simpl. split; [lia | done].
    + destruct (recv (hashKVRevisionChan st)) as [[r c']|] eqn:Hrecv; simpl;
        [|discriminate].
      destruct (step w (Revision r)); simpl; [|discriminate].
      intros [= <-]. simpl. apply recv_length in Hrecv.
      split; [|done]. destruct r as [v|].
      * pose proof (concat_alter_snoc_length v (received st) i). lia.
      * lia.
    + destruct (step w (WatchResp r)); simpl; [|discriminate].
      intros [= <-]. simpl. split; [lia | done].
  - unfold distribute. destruct (dist st) as [ | revision k | ].
    + destruct (recv (hashKVRevisionChan st)) as [[r c']|] eqn:Hrecv; simpl;
        [|discriminate].
      intros [= <-]. simpl. apply recv_length in Hrecv.
      split; [destruct r; lia | done].
    + destruct (memberHashKVRevisionChans st !! k) as [mc|] eqn:Hk.
      * destruct (send memberChanCap mc revision) as [mc'|] eqn:Hsend; simpl;
          [|discriminate].
        intros [= <-]. simpl. split; [lia|].
        intros Hopen. apply Forall_insert; [done|].
        rewrite (send_open _ _ _ _ Hsend).
        by eapply (Forall_lookup_1 _ _ _ _ Hopen Hk).
      * intros [= <-]. simpl. split; [lia | done].
    + discriminate.
  - intros [= <-]. simpl. split; [lia | done].
Qed.

Lemma exec_inv sched : forall st st',
  exec st sched = Some st' ->
  (accounted st' <= accounted st)%nat /\ (membersOpen st -> membersOpen st').
Proof.
  induction sched as [|a sched IH]; intros st st' Hex; simpl in Hex.
  - injection Hex as <-. split; [lia | done].
  - destruct (sched_step st a) as [st1|] eqn:Hstep; [|discriminate].
    destruct (sched_step_inv _ _ _ Hstep) as [Ha Ho].
    destruct (IH _ _ Hex) as [Ha' Ho'].
    split; [lia | auto].
Qed.

(** However the goroutines are scheduled, the workers together take at most
    as many targets as were sent, so with two or more workers they cannot
    all see a non-empty stream of targets in full. *)
Lemma concat_replicate_nil (n : nat) : concat (replicate n (@nil Z)) = [].
Proof. induction n as [|n IHn]; [done | exact IHn]. Qed.

Lemma workers_share_the_targets (n : nat) (targets : list Z)
    (sched : list action) (st : checker) :
  exec (init n targets) sched = Some st ->
  (length (concat (received st)) <= length targets)%nat /\ membersOpen st.
Proof.
  intros Hex. destruct (exec_inv _ _ _ Hex) as [Ha Ho].
  split.
  - unfold accounted in Ha. simpl in Ha.
    rewrite concat_replicate_nil in Ha. simpl in Ha. lia.
  - apply Ho. unfold membersOpen. simpl. apply Forall_replicate. reflexivity.
Qed.

(** C2 at its failing input, two members and the single target 5: the
    workers are handed [hashKVRevisionChan] itself, so under no schedule do
    both workers receive the target, and no member channel is ever closed;
    when the distributor reads the target first, it sits in both member
    channels unread, no worker has seen it, and both workers return
    reporting that their max revision was not set. *)
Theorem workers_read_the_shared_channel :
  (forall sched st,
     exec (init 2 [5]) sched = Some st ->
     received st <> [[5]; [5]] /\
     Forall (λ c, closed c = false) (memberHashKVRevisionChans st)) /\
  (exists st,
     exec (init 2 [5]) distributorFirst = Some st /\
     finished st = true /\
     received st = [[]; []] /\
     buf <$> memberHashKVRevisionChans st = [[5]; [5]] /\
     errors <$> workers st = [[MaxRevisionNotSet]; [MaxRevisionNotSet]]).
Proof.
  split.
  - intros sched st Hex.
    destruct (workers_share_the_targets _ _ _ _ Hex) as [Hlen Hopen].
    split; [|exact Hopen].
    intros Heq. rewrite Heq in Hlen. simpl in Hlen. lia.
  - eexists. split; [vm_compute; reflexivity|].
    repeat split.
Qed.

End CheckerSpec.

(** ** The hash verifier *)

Module VerifierSpec.
Import Verifier.

Lemma index0_head {E} (m : EtcdProcess) (log : list Probe) :
  EndpointsGRPC m <> [] ->
  @index0 E string (EndpointsGRPC m) log = (Done (firstEndpoint m), log).
Proof.
  unfold index0, firstEndpoint. destruct (EndpointsGRPC m) as [|ep eps]; [done|].
  reflexivity.
Qed.

Lemma getHashKV_run env ep rev log :
  getHashKV env ep rev log =
  (match HashKVReply env (length log) ep rev with
   | inl err => Raise (RPCError err)
   | inr r => Done r
   end, log ++ [(ep, rev)]).
Proof.
  unfold getHashKV, mapErr, callHashKV.
  destruct (HashKVReply env (length log) ep rev); reflexivity.
Qed.

(** What the loop over the members does: it probes a prefix of the members,
    in order, all at [rev]; every probe but the last found the member caught
    up; it ends with all the replies, or at the first member whose call
    fails or whose header revision is not [rev]. *)
Lemma probeMembers_spec env rev : forall members hashKVs log out log',
  Forall (λ m, EndpointsGRPC m <> []) members ->
  probeMembers env members rev hashKVs log = (out, log') ->
  exists k,
    (k <= length members)%nat /\
    log' = log ++ memberProbes members rev k /\
    (forall j, (S j < k)%nat -> caughtUp env members rev (length log) j) /\
    match out with
    | Done hs =>
        k = length members /\
        (forall j, (j < k)%nat -> caughtUp env members rev (length log) j) /\
        length hs = (length hashKVs + k)%nat
    | Raise e =>
        exists j m, k = S j /\ members !! j = Some m /\
          match HashKVReply env (length log + j) (firstEndpoint m) rev with
          | inl err => e = RPCError err
          | inr r => HeaderRevision r <> rev /\
                     e = MaxRevisionMismatch rev (HeaderRevision r)
          end
    | Panic => False
    end.
Proof.
  induction members as [|m rest IH]; intros hashKVs log out log' Hwf Hrun.
  - injection Hrun as <- <-. exists 0%nat. unfold memberProbes. simpl.
    rewrite app_nil_r. repeat split; try lia; intros; lia.
  - apply Forall_cons in Hwf as [Hm Hwf].
    cbn [probeMembers] in Hrun. unfold bind at 1 in Hrun.
    rewrite (index0_head m log Hm) in Hrun.
    unfold bind at 1 in Hrun. rewrite getHashKV_run in Hrun.
    destruct (HashKVReply env (length log) (firstEndpoint m) rev) as [err|r] eqn:Hrep.
    + injection Hrun as <- <-. exists 1%nat. unfold memberProbes. simpl.
      rewrite ?take_0. simpl.
      split; [lia|]. split; [reflexivity|]. split; [intros; lia|].
      exists 0%nat, m. rewrite Nat.add_0_r, Hrep. done.
    + destruct (Z.eqb_spec (HeaderRevision r) rev) as [Heq|Hne];
        cbn [negb] in Hrun.
      * destruct (IH _ _ _ _ Hwf Hrun) as (k & Hk & Hlog & Hpre & Hout).
        assert (Hshift : forall j,
          caughtUp env rest rev (length (log ++ [(firstEndpoint m, rev)])) j ->
          caughtUp env (m :: rest) rev (length log) (S j)).
        { intros j (m' & r' & Hl & Hr & Hh). exists m', r'.
          rewrite length_app in Hr. simpl in Hr.
          replace (length log + S j)%nat with (length log + 1 + j)%nat by lia.
          done. }
        assert (Hhere : caughtUp env (m :: rest) rev (length log) 0).
        { exists m, r. rewrite Nat.add_0_r. done. }
        exists (S k). split; [simpl; lia|]. split.
        { rewrite Hlog. unfold memberProbes. simpl. by rewrite <- app_assoc. }
        split.
        { intros [|j] Hj; [exact Hhere|]. apply Hshift, Hpre. lia. }
        destruct out as [hs|e|].
        -- destruct Hout as (-> & Hall & Hlen). split; [reflexivity|]. split.
           ++ intros [|j] Hj; [exact Hhere|]. apply Hshift, Hall. lia.
           ++ rewrite Hlen, length_app. simpl. lia.
        -- destruct Hout as (j & m' & -> & Hl & Hr).
           exists (S j), m'. split; [reflexivity|]. split; [exact Hl|].
           rewrite length_app in Hr. simpl in Hr.
           replace (length log + S j)%nat with (length log + 1 + j)%nat by lia.
           exact Hr.
        -- exact Hout.
      * injection Hrun as <- <-. exists 1%nat. unfold memberProbes. simpl.
        rewrite ?take_0. simpl.
        split; [lia|]. split; [reflexivity|]. split; [intros; lia|].
        exists 0%nat, m. rewrite Nat.add_0_r, Hrep. done.
Qed.

Lemma mismatch_None a b : mismatch a b = None <-> agree a b.
Proof.
  unfold mismatch, agree.
  destruct (Z.eqb_spec (HashRevision a) (HashRevision b));
    destruct (Z.eqb_spec (CompactRevision a) (CompactRevision b));
    destruct (Z.eqb_spec (Hash a) (Hash b)); cbn; split;
    (discriminate || tauto || auto).
Qed.

Lemma mismatch_not_RPCFailure a b e :
  mismatch a b = Some e -> is_RPCFailure e = false.
Proof.
  unfold mismatch.
  repeat match goal with |- context [if ?c then _ else _] => destruct c end;
    intros [= <-]; reflexivity.
Qed.

(** The comparison loop run over indices [i .. i + iters - 1] that all lie
    inside [hashKVs]: it never panics, it succeeds exactly when every such
    index agrees with its predecessor, and it fails at the first index that
    does not, with the error of the first differing field. *)
Lemma compareFrom_spec (hashKVs : list HashKVResponse) : forall iters i,
  (1 <= i)%nat -> (i + iters <= length hashKVs)%nat ->
  match compareFrom hashKVs i iters with
  | Done _ =>
      forall j, (i <= j < i + iters)%nat ->
        exists a b, hashKVs !! (j - 1)%nat = Some a /\ hashKVs !! j = Some b /\
                    agree a b
  | Raise e =>
      exists j a b, (i <= j < i + iters)%nat /\
        hashKVs !! (j - 1)%nat = Some a /\ hashKVs !! j = Some b /\
        mismatch a b = Some e /\
        (forall j', (i <= j' < j)%nat ->
           exists a' b', hashKVs !! (j' - 1)%nat = Some a' /\
                         hashKVs !! j' = Some b' /\ agree a' b')
  | Panic => False
  end.
Proof.
  induction iters as [|iters IH]; intros i Hi Hlen; cbn [compareFrom].
  - intros j Hj. lia.
  - destruct (lookup_lt_is_Some_2 hashKVs (i - 1)) as [a Ha]; [lia|].
    destruct (lookup_lt_is_Some_2 hashKVs i) as [b Hb]; [lia|].
    rewrite Ha, Hb.
    destruct (mismatch a b) as [e|] eqn:Hmis.
    + assert (Hout :
        (if negb (HashRevision a =? HashRevision b) then Raise HashRevisionMismatch
         else if negb (CompactRevision a =? CompactRevision b)
              then Raise CompactRevisionMismatch
              else if negb (Hash a =? Hash b) then Raise HashMismatch
                   else compareFrom hashKVs (S i) iters) = Raise e).
      { unfold mismatch in Hmis.
        repeat match goal with |- context [if ?c then _ else _] => destruct c end;
          congruence. }
      rewrite Hout. exists i, a, b.
      repeat split; try done; try lia; intros j' Hj'; lia.
    + assert (Hout :
        (if negb (HashRevision a =? HashRevision b) then Raise HashRevisionMismatch
         else if negb (CompactRevision a =? CompactRevision b)
              then Raise CompactRevisionMismatch
              else if negb (Hash a =? Hash b) then Raise HashMismatch
                   else compareFrom hashKVs (S i) iters)
        = compareFrom hashKVs (S i) iters).
      { unfold mismatch in Hmis.
        repeat match goal with |- context [if ?c then _ else _] => destruct c end;
          congruence. }
      rewrite Hout. clear Hout.
      apply mismatch_None in Hmis.
      specialize (IH (S i) ltac:(lia) ltac:(lia)).
      destruct (compareFrom hashKVs (S i) iters) as [[]|e|].
      * intros j Hj. destruct (decide (j = i)) as [->|Hne].
        -- exists a, b. done.
        -- apply IH. lia.
      * destruct IH as (j & a' & b' & Hj & Ha' & Hb' & Hm & Hfirst).
        exists j, a', b'. repeat split; try done; try lia.
        intros j' Hj'. destruct (decide (j' = i)) as [->|Hne].
        -- exists a, b. done.
        -- apply Hfirst. lia.
      * exact IH.
Qed.

Lemma compareHashKVs_no_panic (n : nat) (hashKVs : list HashKVResponse) :
  (n <= length hashKVs)%nat -> compareHashKVs n hashKVs <> Panic.
Proof.
  intros Hn. unfold compareHashKVs. destruct n as [|n]; [discriminate|].
  pose proof (compareFrom_spec hashKVs (S n - 1) 1 ltac:(lia) ltac:(lia)) as H.
  intros Heq. rewrite Heq in H. exact H.
Qed.

Lemma compareHashKVs_not_RPCFailure n hashKVs e :
  (n <= length hashKVs)%nat ->
  compareHashKVs n hashKVs = Raise e -> is_RPCFailure e = false.
Proof.
  intros Hn Heq. unfold compareHashKVs in Heq. destruct n as [|n]; [discriminate|].
  pose proof (compareFrom_spec hashKVs (S n - 1) 1 ltac:(lia) ltac:(lia)) as H.
  rewrite Heq in H. destruct H as (j & a & b & _ & _ & _ & Hm & _).
  by eapply mismatch_not_RPCFailure.
Qed.

(** The part of [CheckHashKV] after the revision is fixed: the loop over the
    members followed by the comparison, started after the calls [pre] with
    [hashKVs] already collected. Either every member is probed and found
    caught up, and the result is that of the comparison; or the probes stop
    at the first member whose call fails or whose header revision is not the
    fixed one, and the result is that error. *)
Lemma probe_then_compare env (clus : EtcdProcessCluster) fixed hashKVs pre out log :
  Forall (λ m, EndpointsGRPC m <> []) (Procs clus) ->
  bind (probeMembers env (Procs clus) fixed hashKVs)
       (fun hs l => (compareHashKVs (length (Procs clus)) hs, l)) pre
    = (out, log) ->
  exists k,
    log = pre ++ memberProbes (Procs clus) fixed k /\
    (k <= length (Procs clus))%nat /\
    ((k = length (Procs clus) /\
      (forall j, (j < length (Procs clus))%nat ->
         caughtUp env (Procs clus) fixed (length pre) j) /\
      (out = Done tt \/ exists e, out = Raise e /\ is_RPCFailure e = false)) \/
     (exists j m, k = S j /\ Procs clus !! j = Some m /\
        (forall j', (j' < j)%nat ->
           caughtUp env (Procs clus) fixed (length pre) j') /\
        match HashKVReply env (length pre + j) (firstEndpoint m) fixed with
        | inl err => out = Raise (RPCError err)
        | inr r => HeaderRevision r <> fixed /\
                   out = Raise (MaxRevisionMismatch fixed (HeaderRevision r))
        end)) /\
    out <> Panic.
Proof.
  intros Hwf Hrun. unfold bind in Hrun.
  destruct (probeMembers env (Procs clus) fixed hashKVs pre) as [out1 log1] eqn:Hp.
  destruct (probeMembers_spec _ _ _ _ _ _ _ Hwf Hp) as (k & Hk & Hlog & Hpre & Hout).
  assert (log = log1) as ->.
  { destruct out1; by inversion Hrun. }
  exists k. split; [exact Hlog|]. split; [exact Hk|].
  destruct out1 as [hs|e1|].
  - injection Hrun as <-. destruct Hout as (-> & Hall & Hlen).
    split.
    + left. split; [reflexivity|]. split; [exact Hall|].
      destruct (compareHashKVs (length (Procs clus)) hs) as [[]|e|] eqn:Hc.
      * by left.
      * right. exists e. split; [reflexivity|].
        eapply compareHashKVs_not_RPCFailure; [|exact Hc]. lia.
      * exfalso. eapply compareHashKVs_no_panic; [|exact Hc]. lia.
    + apply compareHashKVs_no_panic. lia.
  - injection Hrun as <-. destruct Hout as (j & m & -> & Hm & He).
    split; [|discriminate].
    right. exists j, m. split; [reflexivity|]. split; [exact Hm|].
    split; [intros j' Hj'; apply Hpre; lia|].
    destruct (HashKVReply env (length pre + j) (firstEndpoint m) fixed) as [err|r].
    + by rewrite He.
    + destruct He as [Hne ->]. done.
  - contradiction.
Qed.

(** The error-returning [CheckHashKV] on a cluster whose members each expose
    an endpoint: the probe that fixes the revision, then the members in order
    at the fixed revision, every one of them unless a probe fails. *)
Lemma CheckHashKV_probe_cases
    (env : Env) (clus : EtcdProcessCluster) (rev : Z) (ep0 : string)
    (out : outcome error unit) (log : list Probe) :
  NewClient env (ClusEndpointsGRPC clus) = None ->
  (rev = 0 -> ClusEndpointsGRPC clus !! 0%nat = Some ep0) ->
  Forall (λ m, EndpointsGRPC m <> []) (Procs clus) ->
  CheckHashKV env clus rev [] = (out, log) ->
  exists (fixed : Z) (pre : list Probe) (k : nat),
    log = pre ++ memberProbes (Procs clus) fixed k /\
    (k <= length (Procs clus))%nat /\
    (if rev =? 0 then
       pre = [(ep0, 0)] /\
       match HashKVReply env 0 ep0 0 with
       | inr r0 => fixed = HeaderRevision r0
       | inl err => out = Raise (RPCError err) /\ k = 0%nat
       end
     else pre = [] /\ fixed = rev) /\
    ((rev = 0 /\ exists err, HashKVReply env 0 ep0 0 = inl err) \/
     (k = length (Procs clus) /\
      (forall j, (j < length (Procs clus))%nat ->
         caughtUp env (Procs clus) fixed (length pre) j) /\
      (out = Done tt \/ exists e, out = Raise e /\ is_RPCFailure e = false)) \/
     (exists j m, k = S j /\ Procs clus !! j = Some m /\
        (forall j', (j' < j)%nat ->
           caughtUp env (Procs clus) fixed (length pre) j') /\
        match HashKVReply env (length pre + j) (firstEndpoint m) fixed with
        | inl err => out = Raise (RPCError err)
        | inr r => HeaderRevision r <> fixed /\
                   out = Raise (MaxRevisionMismatch fixed (HeaderRevision r))
        end)) /\
    out <> Panic.
Proof.
  intros Hnew Hep Hwf Hrun. unfold CheckHashKV in Hrun. rewrite Hnew in Hrun.
  unfold resolveRevision in Hrun.
  destruct (Z.eqb_spec rev 0) as [->|Hnz].
  - specialize (Hep eq_refl).
    unfold bind at 1 2 3 in Hrun. unfold index0 in Hrun. rewrite Hep in Hrun.
    cbn [ret] in Hrun. rewrite getHashKV_run in Hrun. cbn [length app] in Hrun.
    destruct (HashKVReply env 0 ep0 0) as [err|r0] eqn:Hrep.
    + injection Hrun as <- <-. exists 0, [(ep0, 0)], 0%nat.
      unfold memberProbes. rewrite take_0. cbn.
      split; [reflexivity|]. split; [lia|]. split; [done|].
      split; [|discriminate]. left. split; [reflexivity|]. by exists err.
    + cbn [ret fst snd] in Hrun.
      destruct (probe_then_compare env clus (HeaderRevision r0) [r0] [(ep0, 0)]
                  out log Hwf Hrun) as (k & Hlog & Hk & Hcases & Hnp).
      exists (HeaderRevision r0), [(ep0, 0)], k.
      split; [exact Hlog|]. split; [exact Hk|]. split; [done|].
      split; [right; exact Hcases | exact Hnp].
  - unfold bind at 1 in Hrun. cbn [ret fst snd] in Hrun.
    destruct (probe_then_compare env clus rev [] [] out log Hwf Hrun)
      as (k & Hlog & Hk & Hcases & Hnp).
    exists rev, [], k.
    split; [exact Hlog|]. split; [exact Hk|]. split; [done|].
    split; [right; exact Hcases | exact Hnp].
Qed.

(** The comparison reads [hashKVs] only below [i + iters]. *)
Lemma compareFrom_ext (hs hs' : list HashKVResponse) : forall iters i,
  (forall j, (j < i + iters)%nat -> hs !! j = hs' !! j) ->
  compareFrom hs i iters = compareFrom hs' i iters.
Proof.
  induction iters as [|iters IH]; intros i Hext; [reflexivity|].
  cbn [compareFrom].
  rewrite <- (Hext (i - 1)%nat) by lia. rewrite <- (Hext i) by lia.
  rewrite (IH (S i)); [reflexivity|]. intros j Hj. apply Hext. lia.
Qed.

(** With one reply per member in [hashKVs], as after a call with a non-zero
    revision, the comparison succeeds exactly when every member agrees with
    the member before it. *)
Lemma compareHashKVs_pairwise (n : nat) (hashKVs : list HashKVResponse) :
  length hashKVs = n ->
  compareHashKVs n hashKVs = Done tt <->
  (forall j, (1 <= j < n)%nat ->
     exists a b, hashKVs !! (j - 1)%nat = Some a /\ hashKVs !! j = Some b /\
                 agree a b).
Proof.
  intros Hlen. unfold compareHashKVs. destruct n as [|n].
  { split; [intros _ j Hj; lia | reflexivity]. }
  pose proof (compareFrom_spec hashKVs (S n - 1) 1 ltac:(lia) ltac:(lia)) as H.
  destruct (compareFrom hashKVs 1 (S n - 1)) as [[]|e|].
  - split; [|reflexivity]. intros _ j Hj. apply H. lia.
  - split; [discriminate|]. intros Hall. exfalso.
    destruct H as (j & a & b & Hj & Ha & Hb & Hm & _).
    destruct (Hall j ltac:(lia)) as (a' & b' & Ha' & Hb' & Hag).
    apply mismatch_None in Hag. congruence.
  - contradiction.
Qed.

(** With the reply of the revision-fixing probe in front of the members'
    replies, as after a call with revision 0, the comparison does not depend
    on the reply of the last member. *)
Lemma compareHashKVs_skips_last (r0 x y : HashKVResponse)
    (hashKVs : list HashKVResponse) :
  compareHashKVs (S (length hashKVs)) (r0 :: hashKVs ++ [x]) =
  compareHashKVs (S (length hashKVs)) (r0 :: hashKVs ++ [y]).
Proof.
  unfold compareHashKVs. apply compareFrom_ext. intros j Hj.
  destruct j as [|j]; [reflexivity|].
  change ((hashKVs ++ [x]) !! j = (hashKVs ++ [y]) !! j).
  rewrite !lookup_app_l by lia. reflexivity.
Qed.

(** C1 at its failing input: three members, of which the last alone
    reports another hash. The [testing.T] verifier compares each hash with
    [HashKVs[1].Hash] and passes, whatever revision it is given; the
    error-returning verifier called with revision 0 has the reply of its
    first probe at index 0 and stops one member short, and returns no error.
    Called with revision 10 it has one reply per member and returns the hash
    mismatch. *)
Theorem last_member_hash_divergence_undetected :
  Hash diverged <> Hash agreed /\
  (VerifierT.CheckHashKV lastMemberDiverges cluster3 10 []).1 = Done tt /\
  (VerifierT.CheckHashKV lastMemberDiverges cluster3 0 []).1 = Done tt /\
  (CheckHashKV lastMemberDiverges cluster3 0 []).1 = Done tt /\
  (CheckHashKV lastMemberDiverges cluster3 10 []).1 = Raise HashMismatch.
Proof. split; [discriminate|]. vm_compute. repeat split. Qed.

(** The [testing.T] verifier on the same cluster, asked for revision 5 while
    every member is at revision 10: it probes every member at 5, then every
    member again at the largest header revision it saw, and passes without
    comparing any header revision with the revision asked. *)
Lemma CheckHashKV_T_probes_twice :
  VerifierT.CheckHashKV (mkEnv (fun _ => None) (fun _ _ _ => inr agreed))
    cluster3 5 []
  = (Done tt,
     [("m0", 5); ("m1", 5); ("m2", 5); ("m0", 10); ("m1", 10); ("m2", 10)]%string).
Proof. vm_compute. reflexivity. Qed.

End VerifierSpec.

(** ** More on the watch worker *)

Module WatchMore.
Import Watch.

Lemma onEvents_fields evs w :
  maxRevision (onEvents evs w) = maxRevision w /\
  errors (onEvents evs w) = errors w /\
  watchStart (onEvents evs w) = watchStart w /\
  returned (onEvents evs w) = returned w.
Proof.
  unfold onEvents. destruct (last evs); cbv zeta;
    match goal with |- context [if ?b then _ else _] => destruct b end;
    repeat split.
Qed.

Lemma step_target w v w' :
  step w (Revision (Some v)) = Some w' -> maxRevision w' = v.
Proof.
  unfold step. destruct (returned w); [discriminate|]. intros [= <-].
  unfold onRevision. cbv zeta.
  match goal with |- context [if ?b then _ else _] => destruct b end; reflexivity.
Qed.

Lemma default_last_cons (a v : Z) (l : list Z) :
  default a (last (v :: l)) = default v (last l).
Proof.
  revert a v. induction l as [|x l IH]; intros a v; [reflexivity|].
  change (last (v :: x :: l)) with (last (x :: l)).
  rewrite (IH a x). symmetry. apply IH.
Qed.

(** X1: after any run, [maxRevision] is the target delivered last, whatever the
    targets before it were, and is unchanged when the run delivered none. *)
Theorem maxRevision_is_last_target (evs : list event) : forall (w w' : worker),
  run w evs = Some w' ->
  maxRevision w' = default (maxRevision w) (last (targetsOf evs)).
Proof.
  induction evs as [|e evs IH]; intros w w' Hrun; simpl in Hrun.
  - by injection Hrun as <-.
  - destruct (step w e) as [w1|] eqn:Hs; [|discriminate].
    rewrite (IH _ _ Hrun).
    destruct e as [ | [v|] | r | ]; cbn [targetsOf].
    + f_equal. eapply WatchSpec.step_maxRevision_unset; [|done]. discriminate.
    + rewrite (step_target _ _ _ Hs). symmetry. apply default_last_cons.
    + f_equal. eapply WatchSpec.step_maxRevision_unset; [|done]. discriminate.
    + f_equal. eapply WatchSpec.step_maxRevision_unset; [|done]. discriminate.
    + f_equal. eapply WatchSpec.step_maxRevision_unset; [|done]. discriminate.
Qed.

Lemma maxRevision_is_last_target_witness :
  maxRevision (onRevision (Some 5)
                 (onWatch (Some (mkResp None false 0 [7]))
                    (onRevision (Some 10) start))) = 5.
Proof.
  exact (maxRevision_is_last_target
           [Revision (Some 10); WatchResp (Some (mkResp None false 0 [7]));
            Revision (Some 5)] start _ eq_refl).
Defined.

Lemma onCtxDone_fields w :
  returned (onCtxDone w) = true /\
  lastRevision (onCtxDone w) = lastRevision w /\
  maxRevision (onCtxDone w) = maxRevision w /\
  errors (onCtxDone w) =
    errors w
    ++ (if maxRevision w =? 0 then [MaxRevisionNotSet] else [])
    ++ (if lastRevision w <? maxRevision w
        then [RevisionGap (lastRevision w) (maxRevision w)] else []).
Proof.
  unfold onCtxDone. cbv zeta.
  destruct (maxRevision w =? 0); cbn [Errorf maxRevision lastRevision];
    destruct (lastRevision w <? maxRevision w);
    cbn [Errorf cancel set_returned errors returned maxRevision lastRevision];
    rewrite <- ?app_assoc, ?app_nil_r; repeat split.
Qed.

Lemma step_silent w e w' :
  step w e = Some w' -> returned w' = false -> ~ streamError e ->
  errors w' = errors w.
Proof.
  unfold step. destruct (returned w); [discriminate|].
  destruct e as [ | r | [resp|] | ].
  - destruct (ctxDone w); [|discriminate]. intros [= <-] Hr.
    by destruct (onCtxDone_fields w) as (Hret & _); rewrite Hret in Hr.
  - intros [= <-] _ _. unfold onRevision.
    destruct r; cbv zeta;
      match goal with |- context [if ?b then _ else _] => destruct b end;
      reflexivity.
  - intros [= <-] _ Hno. unfold onWatch.
    destruct (Err resp) as [err|] eqn:He; [destruct (Canceled resp) eqn:Hc|].
    + destruct (CompactRevision resp >? lastRevision w); reflexivity.
    + exfalso. apply Hno. by exists resp, err.
    + by destruct (onEvents_fields (Events resp) w) as (_ & -> & _).
  - intros [= <-] _ _. reflexivity.
  - intros [= <-] _ _. reflexivity.
Qed.

Lemma run_returned w evs w' :
  run w evs = Some w' -> returned w' = false -> returned w = false.
Proof.
  destruct evs as [|e evs]; simpl.
  - by intros [= <-].
  - destruct (step w e) eqn:Hs; [|discriminate]. intros _ _.
    unfold step in Hs. by destruct (returned w).
Qed.

(** X2: a worker that is still running has reported nothing, unless the
    watch delivered an error that is not a cancellation: along a run in
    which every response with an error has [Canceled] set, and at the end of
    which the worker has not returned, the reports are those it started
    with. Targets, closed channels, events, compactions and the cancellation
    of the context report nothing; only a stream error and the final check
    do. *)
Theorem silent_until_return (evs : list event) : forall (w w' : worker),
  run w evs = Some w' ->
  returned w' = false ->
  (forall e, e ∈ evs -> ~ streamError e) ->
  errors w' = errors w.
Proof.
  induction evs as [|e evs IH]; intros w w' Hrun Hret Hno; simpl in Hrun.
  - by injection Hrun as <-.
  - destruct (step w e) as [w1|] eqn:Hs; [|discriminate].
    rewrite (IH w1 w' Hrun Hret).
    + apply (step_silent _ _ _ Hs).
      * by eapply run_returned.
      * apply Hno. left.
    + intros e' He'. apply Hno. by right.
Qed.

Lemma silent_until_return_witness :
  errors (onWatch (Some (mkResp (Some "compacted"%string) true 12 []))
            (onRevision (Some 20) (set_parentDone start))) = [].
Proof.
  refine (silent_until_return
            [ParentCancel; Revision (Some 20);
             WatchResp (Some (mkResp (Some "compacted"%string) true 12 []))]
            start _ eq_refl eq_refl _).
  intros e He (resp & err & -> & Herr & Hc).
  repeat (apply elem_of_cons in He as [He|He]; [by simplify_eq/=|]).
  by apply elem_of_nil in He.
Defined.

(** X3: reaching the target ends the worker cleanly: a running worker with a
    non-zero target that receives a response without error whose last event
    is at or past the target calls [cancel], and then returns from its
    [ctx.Done()] case with [lastRevision] at that event and nothing
    reported. *)
Theorem milestone_exit_is_clean (w : worker) (resp : WatchResponse) (r : Z) :
  returned w = false ->
  Err resp = None ->
  last (Events resp) = Some r ->
  maxRevision w <> 0 ->
  r >= maxRevision w ->
  exists w',
    run w [WatchResp (Some resp); CtxDone] = Some w' /\
    returned w' = true /\
    lastRevision w' = r /\
    errors w' = errors w.
Proof.
  intros Hrun Herr Hlast Hset Hge.
  cbn [run]. unfold step at 1. rewrite Hrun.
  unfold onWatch. rewrite Herr. unfold onEvents. rewrite Hlast. cbv zeta.
  cbn [set_lastRevision maxRevision lastRevision].
  destruct (Z.eqb_spec (maxRevision w) 0) as [|_]; [contradiction|].
  destruct (Z.geb_spec r (maxRevision w)) as [_|]; [|lia].
  cbn [negb andb]. unfold step. cbn [cancel set_lastRevision returned].
  rewrite Hrun. unfold ctxDone. cbn [cancelCalled orb].
  eexists. split; [reflexivity|].
  destruct (onCtxDone_fields (cancel (set_lastRevision r w)))
    as (-> & -> & _ & ->).
  cbn [cancel set_lastRevision maxRevision lastRevision errors].
  destruct (Z.eqb_spec (maxRevision w) 0) as [|_]; [contradiction|].
  destruct (Z.ltb_spec r (maxRevision w)) as [|_]; [lia|].
  rewrite app_nil_r. repeat split.
Qed.

Lemma milestone_exit_is_clean_witness :
  exists w',
    run (onRevision (Some 15) start)
        [WatchResp (Some (mkResp None false 0 [14; 15; 16])); CtxDone] = Some w' /\
    returned w' = true /\ lastRevision w' = 16 /\ errors w' = [].
Proof.
  apply (milestone_exit_is_clean (onRevision (Some 15) start)
           (mkResp None false 0 [14; 15; 16]) 16); (reflexivity || (cbn; lia)).
Defined.

(** X4: a target of 0 cannot be told from no target: a running worker (whose
    [lastRevision] is not negative) that receives the target 0 calls
    [cancel] at once, and its final check reports "max revision not set". *)
Theorem zero_target_counts_as_unset (w : worker) :
  returned w = false ->
  lastRevision w >= 0 ->
  exists w',
    run w [Revision (Some 0); CtxDone] = Some w' /\
    returned w' = true /\
    maxRevision w' = 0 /\
    errors w' = errors w ++ [MaxRevisionNotSet].
Proof.
  intros Hrun Hge. cbn [run]. unfold step at 1. rewrite Hrun.
  unfold onRevision. cbv zeta. cbn [set_maxRevision maxRevision lastRevision].
  destruct (Z.geb_spec (lastRevision w) 0) as [_|]; [|lia].
  unfold step. cbn [cancel set_maxRevision returned]. rewrite Hrun.
  unfold ctxDone. cbn [cancelCalled orb].
  eexists. split; [reflexivity|].
  destruct (onCtxDone_fields (cancel (set_maxRevision 0 w)))
    as (-> & _ & -> & ->).
  cbn [cancel set_maxRevision maxRevision lastRevision errors Z.eqb].
  destruct (Z.ltb_spec (lastRevision w) 0) as [|_]; [lia|].
  rewrite app_nil_r. repeat split.
Qed.

Lemma zero_target_counts_as_unset_witness :
  exists w',
    run (onRevision (Some 15) start) [Revision (Some 0); CtxDone] = Some w' /\
    returned w' = true /\ maxRevision w' = 0 /\
    errors w' = [MaxRevisionNotSet].
Proof.
  apply (zero_target_counts_as_unset (onRevision (Some 15) start));
    (reflexivity || (cbn; lia)).
Defined.

(** X5: when the channel of targets is closed: a running worker without target
    calls [cancel] and returns reporting "max revision not set"; a worker
    with a non-zero target is left as it is, and goes on watching. *)
Theorem closed_target_channel (w : worker) :
  returned w = false ->
  lastRevision w >= 0 ->
  (maxRevision w = 0 ->
     exists w',
       run w [Revision None; CtxDone] = Some w' /\
       returned w' = true /\
       errors w' = errors w ++ [MaxRevisionNotSet]) /\
  (maxRevision w <> 0 -> step w (Revision None) = Some w).
Proof.
  intros Hrun Hge. split.
  - intros Hz. cbn [run]. unfold step at 1. rewrite Hrun.
    unfold onRevision. rewrite Hz. cbn [Z.eqb].
    unfold step. cbn [cancel returned]. rewrite Hrun.
    unfold ctxDone. cbn [cancelCalled orb].
    eexists. split; [reflexivity|].
    destruct (onCtxDone_fields (cancel w)) as (-> & _ & _ & ->).
    cbn [cancel maxRevision lastRevision errors]. rewrite Hz. cbn [Z.eqb].
    destruct (Z.ltb_spec (lastRevision w) 0) as [|_]; [lia|].
    rewrite app_nil_r. repeat split.
  - intros Hnz. unfold step. rewrite Hrun. unfold onRevision.
    destruct (Z.eqb_spec (maxRevision w) 0); [contradiction | reflexivity].
Qed.

Lemma closed_target_channel_witness :
  (maxRevision start = 0 ->
     exists w',
       run start [Revision None; CtxDone] = Some w' /\
       returned w' = true /\
       errors w' = errors start ++ [MaxRevisionNotSet]) /\
  (maxRevision start <> 0 -> step start (Revision None) = Some start).
Proof.
  apply (closed_target_channel start); (reflexivity || (cbn; lia)).
Defined.

End WatchMore.

(** ** More on the checker *)

Module CheckerMore.
Import Watch Checker.

Lemma recv_split c r c' :
  recv c = Some (r, c') ->
  buf c = match r with Some v => [v] | None => [] end ++ buf c'.
Proof.
  unfold recv. destruct (buf c) as [|v rest] eqn:Hb.
  - destruct (closed c); [|discriminate]. intros [= <- <-]. by rewrite Hb.
  - intros [= <- <-]. reflexivity.
Qed.

Lemma send_buf cap c v c' :
  send cap c v = Some c' ->
  buf c' = buf c ++ [v] /\ (length (buf c') <= cap)%nat.
Proof.
  unfold send. destruct (Nat.ltb_spec (length (buf c)) cap); [|discriminate].
  intros [= <-]. simpl. rewrite length_app. simpl. split; [reflexivity | lia].
Qed.

Lemma sched_step_fanout targets st a st' :
  sched_step st a = Some st' -> fanout targets st -> fanout targets st'.
Proof.
  intros Hstep (pre & taken & Ht & Hsub & Hfw). unfold fanout, forwarded in *.
  destruct a as [i c | | ]; simpl in Hstep.
  - unfold workerSelect in Hstep.
    destruct (workers st !! i) as [w|]; simpl in Hstep; [|discriminate].
    destruct c as [ | | r].
    + destruct (step w CtxDone); simpl in Hstep; [|discriminate].
      injection Hstep as <-. exists pre, taken. done.
    + destruct (recv (hashKVRevisionChan st)) as [[r c']|] eqn:Hrecv;
        simpl in Hstep; [|discriminate].
      destruct (step w (Revision r)); simpl in Hstep; [|discriminate].
      injection Hstep as <-. simpl. apply recv_split in Hrecv.
      exists (pre ++ match r with Some v => [v] | None => [] end), taken.
      split; [by rewrite Ht, Hrecv, app_assoc|].
      split; [by apply sublist_inserts_r | done].
    + destruct (step w (WatchResp r)); simpl in Hstep; [|discriminate].
      injection Hstep as <-. exists pre, taken. done.
  - unfold distribute in Hstep. destruct (dist st) as [ | revision j | ] eqn:Hd.
    + destruct (recv (hashKVRevisionChan st)) as [[r c']|] eqn:Hrecv;
        simpl in Hstep; [|discriminate].
      injection Hstep as <-. simpl. apply recv_split in Hrecv.
      destruct r as [v|].
      * exists (pre ++ [v]), (taken ++ [v]).
        split; [by rewrite Ht, Hrecv, app_assoc|].
        split; [by apply sublist_app|].
        exists taken. split; [reflexivity|]. intros k c Hk.
        destruct (k <? 0)%nat eqn:Hlt; [apply Nat.ltb_lt in Hlt; lia|]. eauto.
      * exists pre, taken. rewrite Ht, Hrecv. done.
    + destruct Hfw as (taken' & -> & Hfw).
      destruct (memberHashKVRevisionChans st !! j) as [mc|] eqn:Hj.
      * destruct (send memberChanCap mc revision) as [mc'|] eqn:Hsend;
          simpl in Hstep; [|discriminate].
        injection Hstep as <-. simpl.
        exists pre, (taken' ++ [revision]). split; [done|]. split; [done|].
        exists taken'. split; [reflexivity|]. intros k c Hk.
        destruct (decide (k = j)) as [->|Hne].
        -- rewrite list_lookup_insert_eq in Hk by (by eapply lookup_lt_Some).
           injection Hk as <-.
           destruct (send_buf _ _ _ _ Hsend) as [-> _].
           rewrite (Hfw j mc Hj), Nat.ltb_irrefl.
           destruct (Nat.ltb_spec j (S j)); [reflexivity | lia].
        -- rewrite list_lookup_insert_ne in Hk by done.
           rewrite (Hfw k c Hk).
           destruct (Nat.ltb_spec k j), (Nat.ltb_spec k (S j));
             (reflexivity || lia).
      * injection Hstep as <-. simpl.
        exists pre, (taken' ++ [revision]). split; [done|]. split; [done|].
        intros k c Hk. rewrite (Hfw k c Hk).
        apply lookup_ge_None in Hj. pose proof (lookup_lt_Some _ _ _ Hk).
        destruct (Nat.ltb_spec k j); [reflexivity | lia].
    + discriminate.
  - injection Hstep as <-. exists pre, taken. done.
Qed.

Lemma sched_step_capacity st a st' :
  sched_step st a = Some st' ->
  Forall (λ c, (length (buf c) <= memberChanCap)%nat) (memberHashKVRevisionChans st) ->
  Forall (λ c, (length (buf c) <= memberChanCap)%nat) (memberHashKVRevisionChans st').
Proof.
  intros Hstep Hcap. destruct a as [i c | | ]; simpl in Hstep.
  - unfold workerSelect in Hstep.
    destruct (workers st !! i) as [w|]; simpl in Hstep; [|discriminate].
    destruct c as [ | | r].
    + destruct (step w CtxDone); simpl in Hstep; [|discriminate].
      by injection Hstep as <-.
    + destruct (recv (hashKVRevisionChan st)) as [[r c']|];
        simpl in Hstep; [|discriminate].
      destruct (step w (Revision r)); simpl in Hstep; [|discriminate].
      by injection Hstep as <-.
    + destruct (step w (WatchResp r)); simpl in Hstep; [|discriminate].
      by injection Hstep as <-.
  - unfold distribute in Hstep. destruct (dist st) as [ | revision j | ].
    + destruct (recv (hashKVRevisionChan st)) as [[r c']|];
        simpl in Hstep; [|discriminate].
      by injection Hstep as <-.
    + destruct (memberHashKVRevisionChans st !! j) as [mc|] eqn:Hj.
      * destruct (send memberChanCap mc revision) as [mc'|] eqn:Hsend;
          simpl in Hstep; [|discriminate].
        injection Hstep as <-. simpl. apply Forall_insert; [done|].
        by destruct (send_buf _ _ _ _ Hsend) as [_ ?].
      * by injection Hstep as <-.
    + discriminate.
  - by injection Hstep as <-.
Qed.

Lemma exec_preserves (P : checker -> Prop) :
  (forall st a st', sched_step st a = Some st' -> P st -> P st') ->
  forall sched st st', exec st sched = Some st' -> P st -> P st'.
Proof.
  intros Hstep. induction sched as [|a sched IH]; intros st st' Hex HP;
    simpl in Hex.
  - by injection Hex as <-.
  - destruct (sched_step st a) as [st1|] eqn:Hs; [|discriminate].
    eapply IH; [exact Hex|]. by eapply Hstep.
Qed.

Lemma concat_alter_snoc_exact (v : Z) (rs : list (list Z)) : forall i,
  (i < length rs)%nat ->
  length (concat (alter (λ l, l ++ [v]) i rs)) = S (length (concat rs)).
Proof.
  induction rs as [|r rs IH]; intros [|i] Hi; simpl in Hi; try lia;
    cbn [alter list_alter concat]; rewrite !length_app; cbn [length].
  - lia.
  - rewrite IH by lia. lia.
Qed.

Lemma recv_closed_empty c r c' :
  recv c = Some (r, c') -> buf c = [] -> buf c' = [].
Proof.
  unfold recv. intros Hr Hb. rewrite Hb in Hr.
  destruct (closed c); [|discriminate]. injection Hr as _ <-. exact Hb.
Qed.

Lemma recv_None c c' : recv c = Some (None, c') -> buf c' = [].
Proof.
  unfold recv. destruct (buf c) as [|v rest] eqn:Hb; [|discriminate].
  destruct (closed c); [|discriminate]. by intros [= <-].
Qed.

Lemma sched_step_members_length st a st' :
  sched_step st a = Some st' ->
  length (memberHashKVRevisionChans st') = length (memberHashKVRevisionChans st).
Proof.
  intros Hstep. destruct a as [i c | | ]; simpl in Hstep.
  - unfold workerSelect in Hstep.
    destruct (workers st !! i) as [w|]; simpl in Hstep; [|discriminate].
    destruct c as [ | | r].
    + destruct (step w CtxDone); simpl in Hstep; [|discriminate].
      by injection Hstep as <-.
    + destruct (recv (hashKVRevisionChan st)) as [[r c']|];
        simpl in Hstep; [|discriminate].
      destruct (step w (Revision r)); simpl in Hstep; [|discriminate].
      by injection Hstep as <-.
    + destruct (step w (WatchResp r)); simpl in Hstep; [|discriminate].
      by injection Hstep as <-.
  - unfold distribute in Hstep. destruct (dist st) as [ | revision j | ].
    + destruct (recv (hashKVRevisionChan st)) as [[r c']|];
        simpl in Hstep; [|discriminate].
      by injection Hstep as <-.
    + destruct (memberHashKVRevisionChans st !! j) as [mc|].
      * destruct (send memberChanCap mc revision) as [mc'|];
          simpl in Hstep; [|discriminate].
        injection Hstep as <-. simpl. apply length_insert.
      * by injection Hstep as <-.
    + discriminate.
  - by injection Hstep as <-.
Qed.

Lemma sched_step_ledger targets st a st' :
  sched_step st a = Some st' -> ledger targets st -> ledger targets st'.
Proof.
  intros Hstep (Hlen & Hexit & pre & taken & Ht & Hfw & Hcount).
  unfold ledger, forwarded in *.
  destruct a as [i c | | ]; simpl in Hstep.
  - unfold workerSelect in Hstep.
    destruct (workers st !! i) as [w|] eqn:Hw; simpl in Hstep; [|discriminate].
    pose proof (lookup_lt_Some _ _ _ Hw) as Hi.
    destruct c as [ | | r].
    + destruct (step w CtxDone); simpl in Hstep; [|discriminate].
      injection Hstep as <-. simpl. rewrite length_insert.
      split; [exact Hlen|]. split; [exact Hexit|]. exists pre, taken. done.
    + destruct (recv (hashKVRevisionChan st)) as [[r c']|] eqn:Hrecv;
        simpl in Hstep; [|discriminate].
      destruct (step w (Revision r)); simpl in Hstep; [|discriminate].
      injection Hstep as <-. simpl. rewrite length_insert.
      pose proof (recv_split _ _ _ Hrecv) as Hsplit.
      split; [destruct r; by rewrite ?length_alter|].
      split; [intros Hd; eapply recv_closed_empty; eauto|].
      destruct r as [v|].
      * exists (pre ++ [v]), taken.
        split; [by rewrite Ht, Hsplit, app_assoc|]. split; [exact Hfw|].
        rewrite length_app, concat_alter_snoc_exact by lia. simpl. lia.
      * exists pre, taken. rewrite Ht, Hsplit. done.
    + destruct (step w (WatchResp r)); simpl in Hstep; [|discriminate].
      injection Hstep as <-. simpl. rewrite length_insert.
      split; [exact Hlen|]. split; [exact Hexit|]. exists pre, taken. done.
  - unfold distribute in Hstep. destruct (dist st) as [ | revision j | ] eqn:Hd.
    + destruct (recv (hashKVRevisionChan st)) as [[r c']|] eqn:Hrecv;
        simpl in Hstep; [|discriminate].
      injection Hstep as <-. simpl.
      pose proof (recv_split _ _ _ Hrecv) as Hsplit.
      split; [exact Hlen|].
      destruct r as [v|].
      * split; [discriminate|].
        exists (pre ++ [v]), (taken ++ [v]).
        split; [by rewrite Ht, Hsplit, app_assoc|].
        split; [|rewrite !length_app; simpl; lia].
        exists taken. split; [reflexivity|]. intros k c Hk.
        destruct (k <? 0)%nat eqn:Hlt; [apply Nat.ltb_lt in Hlt; lia|]. eauto.
      * split; [intros _; by eapply recv_None|].
        exists pre, taken. rewrite Ht, Hsplit. done.
    + destruct Hfw as (taken' & -> & Hfw).
      destruct (memberHashKVRevisionChans st !! j) as [mc|] eqn:Hj.
      * destruct (send memberChanCap mc revision) as [mc'|] eqn:Hsend;
          simpl in Hstep; [|discriminate].
        injection Hstep as <-. simpl.
        split; [exact Hlen|]. split; [discriminate|].
        exists pre, (taken' ++ [revision]). split; [done|]. split; [|done].
        exists taken'. split; [reflexivity|]. intros k c Hk.
        destruct (decide (k = j)) as [->|Hne].
        -- rewrite list_lookup_insert_eq in Hk by (by eapply lookup_lt_Some).
           injection Hk as <-.
           destruct (send_buf _ _ _ _ Hsend) as [-> _].
           rewrite (Hfw j mc Hj), Nat.ltb_irrefl.
           destruct (Nat.ltb_spec j (S j)); [reflexivity | lia].
        -- rewrite list_lookup_insert_ne in Hk by done.
           rewrite (Hfw k c Hk).
           destruct (Nat.ltb_spec k j), (Nat.ltb_spec k (S j));
             (reflexivity || lia).
      * injection Hstep as <-. simpl.
        split; [exact Hlen|]. split; [discriminate|].
        exists pre, (taken' ++ [revision]). split; [done|]. split; [|done].
        intros k c Hk. rewrite (Hfw k c Hk).
        apply lookup_ge_None in Hj. pose proof (lookup_lt_Some _ _ _ Hk).
        destruct (Nat.ltb_spec k j); [reflexivity | lia].
    + discriminate.
  - injection Hstep as <-. simpl. rewrite length_fmap.
    split; [exact Hlen|]. split; [exact Hexit|]. exists pre, taken. done.
Qed.

(** X6: the distributor gets past its loop only if the member channels had
    room for all it read. Nothing receives from a member channel, and each
    holds at most 100 revisions; so, with at least one member, in any state
    in which the distributor has left its loop, at most 100 of the targets
    sent went to the distributor: the targets sent number at most 100 plus
    those the workers received themselves. *)
Theorem distributor_exit_needs_room
    (n : nat) (targets : list Z) (sched : list action) (st : checker) :
  exec (init n targets) sched = Some st ->
  (1 <= n)%nat ->
  dist st = DistExit ->
  (length targets <= 100 + length (concat (received st)))%nat.
Proof.
  intros Hex Hn Hd.
  assert (Hcap : Forall (λ c, (length (buf c) <= memberChanCap)%nat)
                   (memberHashKVRevisionChans st)).
  { apply (exec_preserves _ sched_step_capacity _ _ _ Hex).
    simpl. apply Forall_replicate. simpl. lia. }
  assert (Hmem : length (memberHashKVRevisionChans st) = n).
  { apply (exec_preserves
             (λ st, length (memberHashKVRevisionChans st) = n)) with (2 := Hex).
    - intros s a s' Hs <-. by apply sched_step_members_length with a.
    - simpl. apply length_replicate. }
  assert (Hled : ledger targets st).
  { apply (exec_preserves _ (sched_step_ledger targets) _ _ _ Hex).
    split; [simpl; by rewrite !length_replicate|]. split; [discriminate|].
    exists [], []. split; [reflexivity|]. split.
    - unfold forwarded. simpl. intros k c Hk.
      apply lookup_replicate in Hk as [-> _]. reflexivity.
    - simpl. by rewrite CheckerSpec.concat_replicate_nil. }
  destruct Hled as (_ & Hexit & pre & taken & Ht & Hfw & Hcount).
  unfold forwarded in Hfw. rewrite Hd in Hfw.
  destruct (lookup_lt_is_Some_2 (memberHashKVRevisionChans st) 0) as [c Hc];
    [lia|].
  pose proof (Forall_lookup_1 _ _ _ _ Hcap Hc) as Hc100. simpl in Hc100.
  rewrite (Hfw 0%nat c Hc) in Hc100. unfold memberChanCap in Hc100.
  rewrite Ht, (Hexit Hd), app_nil_r, Hcount. lia.
Qed.

Lemma distributor_exit_needs_room_witness :
  (length [5; 7] <= 100 + length (concat [[]; [5]]))%nat.
Proof.
  exact (distributor_exit_needs_room 2 [5; 7]
           [WorkerSelect 1 CaseRevision; Distribute; Distribute; Distribute;
            Distribute; Distribute] _ eq_refl ltac:(lia) eq_refl).
Defined.

(** X7: what the distributor does forward, it forwards in order and to the
    member channels in turn: under any schedule every member channel holds
    a subsequence of the targets sent, in their order; a later channel holds
    a prefix of an earlier one, shorter by at most the revision being
    forwarded; and whenever the distributor is between two revisions, or
    past its loop, all member channels hold the same sequence. *)
Theorem distributor_forwards_in_order
    (n : nat) (targets : list Z) (sched : list action) (st : checker) :
  exec (init n targets) sched = Some st ->
  (forall k c, memberHashKVRevisionChans st !! k = Some c ->
     buf c `sublist_of` targets) /\
  (forall k k' c c', (k <= k')%nat ->
     memberHashKVRevisionChans st !! k = Some c ->
     memberHashKVRevisionChans st !! k' = Some c' ->
     buf c' `prefix_of` buf c /\ (length (buf c) <= S (length (buf c')))%nat) /\
  ((forall v j, dist st <> DistSend v j) ->
   forall k k' c c',
     memberHashKVRevisionChans st !! k = Some c ->
     memberHashKVRevisionChans st !! k' = Some c' ->
     buf c = buf c').
Proof.
  intros Hex.
  assert (Hinv : fanout targets st).
  { apply (exec_preserves _ (sched_step_fanout targets) _ _ _ Hex).
    exists [], []. split; [reflexivity|]. split; [reflexivity|].
    unfold forwarded. simpl. intros k c Hk.
    apply lookup_replicate in Hk as [-> _]. reflexivity. }
  destruct Hinv as (pre & taken & Ht & Hsub & Hfw). unfold forwarded in Hfw.
  assert (Hpre : taken `sublist_of` targets).
  { rewrite Ht. by apply sublist_inserts_r. }
  destruct (dist st) as [ | v j | ] eqn:Hd.
  - split; [|split].
    + intros k c Hk. by rewrite (Hfw k c Hk).
    + intros k k' c c' _ Hk Hk'. rewrite (Hfw k c Hk), (Hfw k' c' Hk').
      split; [reflexivity | lia].
    + intros _ k k' c c' Hk Hk'. by rewrite (Hfw k c Hk), (Hfw k' c' Hk').
  - destruct Hfw as (taken' & -> & Hfw).
    assert (Hsub' : taken' `sublist_of` targets).
    { etransitivity; [|exact Hpre]. by apply sublist_inserts_r. }
    split; [|split].
    + intros k c Hk. rewrite (Hfw k c Hk). by destruct (k <? j)%nat.
    + intros k k' c c' Hle Hk Hk'. rewrite (Hfw k c Hk), (Hfw k' c' Hk').
      destruct (Nat.ltb_spec k j), (Nat.ltb_spec k' j); try lia;
        rewrite ?length_app; simpl;
        (split; [reflexivity || (apply prefix_app_r; reflexivity) | lia]).
    + intros Hno. exfalso. by eapply Hno.
  - split; [|split].
    + intros k c Hk. by rewrite (Hfw k c Hk).
    + intros k k' c c' _ Hk Hk'. rewrite (Hfw k c Hk), (Hfw k' c' Hk').
      split; [reflexivity | lia].
    + intros _ k k' c c' Hk Hk'. by rewrite (Hfw k c Hk), (Hfw k' c' Hk').
Qed.

Lemma distributor_forwards_in_order_witness :
  (forall k c, [mkChan [5] false; mkChan [] false] !! k = Some c ->
     buf c `sublist_of` [5; 7]) /\
  (forall k k' c c', (k <= k')%nat ->
     [mkChan [5] false; mkChan [] false] !! k = Some c ->
     [mkChan [5] false; mkChan [] false] !! k' = Some c' ->
     buf c' `prefix_of` buf c /\ (length (buf c) <= S (length (buf c')))%nat).
Proof.
  destruct (distributor_forwards_in_order 2 [5; 7] [Distribute; Distribute]
              _ eq_refl) as (Hsub & Hchain & _).
  split; [exact Hsub | exact Hchain].
Defined.

Lemma sched_step_received targets st a st' :
  sched_step st a = Some st' ->
  (exists pre, targets = pre ++ buf (hashKVRevisionChan st) /\
     forall i l, received st !! i = Some l -> l `sublist_of` pre) ->
  (exists pre, targets = pre ++ buf (hashKVRevisionChan st') /\
     forall i l, received st' !! i = Some l -> l `sublist_of` pre).
Proof.
  intros Hstep (pre & Ht & Hrec).
  destruct a as [i c | | ]; simpl in Hstep.
  - unfold workerSelect in Hstep.
    destruct (workers st !! i) as [w|]; simpl in Hstep; [|discriminate].
    destruct c as [ | | r].
    + destruct (step w CtxDone); simpl in Hstep; [|discriminate].
      injection Hstep as <-. exists pre. done.
    + destruct (recv (hashKVRevisionChan st)) as [[r c']|] eqn:Hrecv;
        simpl in Hstep; [|discriminate].
      destruct (step w (Revision r)); simpl in Hstep; [|discriminate].
      injection Hstep as <-. simpl. apply recv_split in Hrecv.
      destruct r as [v|].
      * exists (pre ++ [v]). split; [by rewrite Ht, Hrecv, app_assoc|].
        intros i' l Hl. destruct (decide (i' = i)) as [->|Hne].
        -- rewrite list_lookup_alter_eq in Hl.
           destruct (received st !! i) as [l0|] eqn:Hl0; [|discriminate].
           injection Hl as <-. apply sublist_app; [by eapply Hrec | reflexivity].
        -- rewrite list_lookup_alter_ne in Hl by done.
           apply sublist_inserts_r. by eapply Hrec.
      * exists pre. rewrite Ht, Hrecv. done.
    + destruct (step w (WatchResp r)); simpl in Hstep; [|discriminate].
      injection Hstep as <-. exists pre. done.
  - unfold distribute in Hstep. destruct (dist st) as [ | revision j | ].
    + destruct (recv (hashKVRevisionChan st)) as [[r c']|] eqn:Hrecv;
        simpl in Hstep; [|discriminate].
      injection Hstep as <-. simpl. apply recv_split in Hrecv.
      exists (pre ++ match r with Some v => [v] | None => [] end).
      split; [by rewrite Ht, Hrecv, app_assoc|].
      intros i l Hl. apply sublist_inserts_r. by eapply Hrec.
    + destruct (memberHashKVRevisionChans st !! j) as [mc|].
      * destruct (send memberChanCap mc revision) as [mc'|];
          simpl in Hstep; [|discriminate].
        injection Hstep as <-. exists pre. done.
      * injection Hstep as <-. exists pre. done.
    + discriminate.
  - injection Hstep as <-. exists pre. done.
Qed.

(** X8: a target is handed to one receiver only: under any schedule each worker
    has received a subsequence of the targets sent, in their order, and the
    workers together have received no more targets than were sent and are
    no longer in the channel. *)
Theorem targets_received_once
    (n : nat) (targets : list Z) (sched : list action) (st : checker) :
  exec (init n targets) sched = Some st ->
  (forall i l, received st !! i = Some l -> l `sublist_of` targets) /\
  (length (concat (received st)) + length (buf (hashKVRevisionChan st))
   <= length targets)%nat.
Proof.
  intros Hex. split.
  - assert (Hinv : exists pre, targets = pre ++ buf (hashKVRevisionChan st) /\
              forall i l, received st !! i = Some l -> l `sublist_of` pre).
    { apply (exec_preserves _ (sched_step_received targets) _ _ _ Hex).
      exists []. split; [reflexivity|]. simpl. intros i l Hl.
      apply lookup_replicate in Hl as [-> _]. reflexivity. }
    destruct Hinv as (pre & Ht & Hrec). intros i l Hl.
    rewrite Ht. apply sublist_inserts_r. by eapply Hrec.
  - destruct (CheckerSpec.exec_inv _ _ _ Hex) as [Ha _].
    unfold accounted in Ha. simpl in Ha.
    rewrite CheckerSpec.concat_replicate_nil in Ha. simpl in Ha. lia.
Qed.

Lemma targets_received_once_witness :
  (forall i l, [[5]; [7]] !! i = Some l -> l `sublist_of` [5; 7; 9]) /\
  (length (concat [[5]; [7]]) + length [9] <= length [5; 7; 9])%nat.
Proof.
  exact (targets_received_once 2 [5; 7; 9]
           [WorkerSelect 0 CaseRevision; WorkerSelect 1 CaseRevision]
           _ eq_refl).
Defined.

(** X9: cancelling the context given to the checker lets every worker leave:
    a worker that has not returned can then take its [ctx.Done()] case, and
    it returns after its final check. *)
Theorem cancelled_worker_returns (st : checker) (i : nat) (w : worker) :
  workers st !! i = Some w ->
  returned w = false ->
  exists st' w',
    exec st [CancelParent; WorkerSelect i CaseCtxDone] = Some st' /\
    workers st' !! i = Some w' /\
    returned w' = true /\
    errors w' =
      errors w
      ++ (if maxRevision w =? 0 then [MaxRevisionNotSet] else [])
      ++ (if lastRevision w <? maxRevision w
          then [RevisionGap (lastRevision w) (maxRevision w)] else []).
Proof.
  intros Hw Hrun. cbn [exec sched_step]. unfold workerSelect.
  cbn [cancelParent workers]. rewrite list_lookup_fmap, Hw. cbn.
  unfold step. cbn [set_parentDone returned]. rewrite Hrun.
  unfold ctxDone. cbn [parentDone]. rewrite orb_true_r. cbn.
  eexists _, _. split; [reflexivity|]. cbn [workers].
  split.
  { apply list_lookup_insert_eq. rewrite length_fmap. by eapply lookup_lt_Some. }
  destruct (WatchMore.onCtxDone_fields (set_parentDone w)) as (-> & _ & _ & ->).
  split; reflexivity.
Qed.

Lemma cancelled_worker_returns_witness :
  exists st' w',
    exec (init 2 [5]) [CancelParent; WorkerSelect 1 CaseCtxDone] = Some st' /\
    workers st' !! 1%nat = Some w' /\
    returned w' = true /\
    errors w' = [MaxRevisionNotSet].
Proof.
  destruct (cancelled_worker_returns (init 2 [5]) 1 start eq_refl eq_refl)
    as (st' & w' & Hex & Hw & Hr & He).
  exists st', w'. split; [exact Hex|]. split; [exact Hw|].
  split; [exact Hr | exact He].
Defined.

End CheckerMore.

(** ** More on the hijacked streams *)

Module HijackMore.
Import Hijack.

(** X10: with the request-body failpoint disarmed, any sequence of reads through
    the wrapper of a present body returns, read by read, what the same reads
    on the body return, and leaves the body in the same state. *)
Theorem disarmed_reads_are_direct
    (S : Type) (fp : Failpoints) (rc : ReadCloser S) (ps : list nat) (s : S) :
  fp DemoDropRequestBodyFailPoint = false ->
  hijackedReads fp (hijackRequestBody (Some rc)) ps s
    = Some (directReads rc ps s).
Proof.
  intros Hfp. revert s. induction ps as [|p ps IH]; intros s; [reflexivity|].
  cbn [hijackedReads directReads]. unfold hijackedRead. rewrite Hfp.
  cbn [hijackRequestBody originalReadCloser].
  destruct (Read rc s p) as [r s']. rewrite IH.
  destruct (directReads rc ps s') as [rs s'']. reflexivity.
Qed.

Lemma disarmed_reads_are_direct_witness :
  hijackedReads disarmed (hijackRequestBody (Some bodyReader)) [2; 2; 2]%nat
    [10; 20; 30]
  = Some ([([10; 20], None); ([30], None); ([], Some "EOF"%string)], []).
Proof.
  exact (disarmed_reads_are_direct (list Z) disarmed bodyReader [2; 2; 2]%nat
           [10; 20; 30] eq_refl).
Defined.

(** X11: with the request-body failpoint armed, any sequence of reads through
    the wrapper of a present body moves the body exactly as the same reads on
    the body would, and returns their errors, read by read; every read
    delivers no bytes. *)
Theorem armed_reads_drain_in_step
    (S : Type) (fp : Failpoints) (rc : ReadCloser S) (ps : list nat) (s : S) :
  fp DemoDropRequestBodyFailPoint = true ->
  hijackedReads fp (hijackRequestBody (Some rc)) ps s
    = Some ((λ r, ([], r.2)) <$> (directReads rc ps s).1,
            (directReads rc ps s).2).
Proof.
  intros Hfp. revert s. induction ps as [|p ps IH]; intros s; [reflexivity|].
  cbn [hijackedReads directReads]. unfold hijackedRead. rewrite Hfp.
  cbn [hijackRequestBody originalReadCloser discardReadData].
  destruct (Read rc s p) as [[d e] s']. rewrite IH.
  destruct (directReads rc ps s') as [rs s'']. reflexivity.
Qed.

Lemma armed_reads_drain_in_step_witness :
  hijackedReads allArmed (hijackRequestBody (Some bodyReader)) [2; 2; 2]%nat
    [10; 20; 30]
  = Some ([([], None); ([], None); ([], Some "EOF"%string)], []).
Proof.
  exact (armed_reads_drain_in_step (list Z) allArmed bodyReader [2; 2; 2]%nat
           [10; 20; 30] eq_refl).
Defined.

(** X12: with the two response-writer failpoints disarmed, any sequence of header
    writes, writes and flushes through the wrapper of a present writer that
    can flush returns what the same calls on the writer return and leaves
    the writer in the same state. *)
Theorem disarmed_calls_are_direct
    (W : Type) (fp : Failpoints) (rw : ResponseWriter W) (flush : W -> W)
    (cs : list call) (w : W) :
  fp HijackResponseWriterFailPoint = false ->
  fp HijackResponseWriterHeaderFailPoint = false ->
  Flusher rw = Some flush ->
  hijackedCalls fp (hijackResponseWriter (Some rw)) cs w
    = Some (directCalls rw flush cs w).
Proof.
  intros Hw Hh Hf. revert w.
  induction cs as [|[code|p|] cs IH]; intros w; cbn [hijackedCalls directCalls].
  - reflexivity.
  - unfold hijackedWriteHeader. rewrite Hh.
    cbn [hijackResponseWriter originalResponseWriter]. apply IH.
  - unfold hijackedWrite. rewrite Hw.
    cbn [hijackResponseWriter originalResponseWriter].
    destruct (Write rw w p) as [r w']. rewrite IH.
    destruct (directCalls rw flush cs w') as [rs w'']. reflexivity.
  - unfold hijackedFlush. cbn [hijackResponseWriter originalResponseWriter].
    rewrite Hf. apply IH.
Qed.

Lemma disarmed_calls_are_direct_witness :
  hijackedCalls disarmed (hijackResponseWriter (Some recorder))
    [CallWriteHeader 404; CallWrite [1; 2]; CallFlush; CallWrite [3]]
    (mkRecorded None [] 0)
  = Some ([(2%nat, None); (1%nat, None)], mkRecorded (Some 404) [1; 2; 3] 1).
Proof.
  exact (disarmed_calls_are_direct recorded disarmed recorder _
           [CallWriteHeader 404; CallWrite [1; 2]; CallFlush; CallWrite [3]]
           (mkRecorded None [] 0) eq_refl eq_refl eq_refl).
Defined.

(** X13: each failpoint drops the calls of its own kind and no other: whatever
    failpoints are armed, a sequence of calls through the wrapper of a
    present writer that can flush leaves the writer as the calls that get
    past the failpoints would, made on the writer itself; flushes always get
    past; and when the write failpoint is armed every write reports 0 bytes
    and no error. *)
Theorem calls_dropped_by_failpoint
    (W : Type) (fp : Failpoints) (rw : ResponseWriter W) (flush : W -> W)
    (cs : list call) (w : W) :
  Flusher rw = Some flush ->
  exists rs,
    hijackedCalls fp (hijackResponseWriter (Some rw)) cs w
      = Some (rs, (directCalls rw flush (filter (λ c, passes fp c = true) cs) w).2) /\
    (fp HijackResponseWriterFailPoint = true ->
       Forall (λ r, r = (0%nat, None)) rs).
Proof.
  intros Hf. revert w.
  induction cs as [|[code|p|] cs IH]; intros w; cbn [hijackedCalls].
  - exists []. split; [reflexivity | constructor].
  - unfold hijackedWriteHeader. rewrite filter_cons. cbn [passes].
    destruct (fp HijackResponseWriterHeaderFailPoint) eqn:Hh; cbn [negb].
    + rewrite decide_False by discriminate. apply IH.
    + rewrite decide_True by reflexivity. cbn [directCalls].
      cbn [hijackResponseWriter originalResponseWriter]. apply IH.
  - unfold hijackedWrite. rewrite filter_cons. cbn [passes].
    destruct (fp HijackResponseWriterFailPoint) eqn:Hw; cbn [negb].
    + rewrite decide_False by discriminate.
      destruct (IH w) as (rs & -> & Hrs). exists ((0%nat, None) :: rs).
      split; [reflexivity|]. intros _. constructor; [reflexivity | by apply Hrs].
    + rewrite decide_True by reflexivity. cbn [directCalls].
      cbn [hijackResponseWriter originalResponseWriter].
      destruct (Write rw w p) as [r w'].
      destruct (IH w') as (rs & -> & Hrs). exists (r :: rs).
      destruct (directCalls rw flush _ w') as [rs' w'']. cbn [snd].
      split; [reflexivity | discriminate].
  - unfold hijackedFlush. cbn [hijackResponseWriter originalResponseWriter].
    rewrite Hf. rewrite filter_cons. cbn [passes].
    rewrite decide_True by reflexivity. cbn [directCalls]. apply IH.
Qed.

Lemma calls_dropped_by_failpoint_witness :
  exists rs,
    hijackedCalls allArmed (hijackResponseWriter (Some recorder))
      [CallWriteHeader 200; CallWrite [1; 2]; CallFlush] (mkRecorded None [] 0)
      = Some (rs, mkRecorded None [] 1) /\
    (allArmed HijackResponseWriterFailPoint = true ->
       Forall (λ r, r = (0%nat, None)) rs).
Proof.
  exact (calls_dropped_by_failpoint recorded allArmed recorder _
           [CallWriteHeader 200; CallWrite [1; 2]; CallFlush]
           (mkRecorded None [] 0) eq_refl).
Defined.

End HijackMore.

(** ** More on the hash verifier *)

Module VerifierMore.
Import Verifier.

(** The loop over the members succeeds exactly on the replies of members
    that all answer with [rev] in their header, and returns them after the
    replies it was given. *)
Lemma probeMembers_Done env rev : forall members hashKVs log hs log',
  Forall (λ m, EndpointsGRPC m <> []) members ->
  probeMembers env members rev hashKVs log = (Done hs, log') ->
  exists rs, hs = hashKVs ++ rs /\ repliesOf env members rev (length log) rs /\
             log' = log ++ memberProbes members rev (length members).
Proof.
  induction members as [|m rest IH]; intros hashKVs log hs log' Hwf Hrun.
  - injection Hrun as <- <-. exists []. rewrite !app_nil_r.
    split; [reflexivity|]. split; [|reflexivity].
    split; [reflexivity|]. intros j m Hm. discriminate.
  - apply Forall_cons in Hwf as [Hm Hwf].
    cbn [probeMembers] in Hrun. unfold bind at 1 in Hrun.
    rewrite (VerifierSpec.index0_head m log Hm) in Hrun.
    unfold bind at 1 in Hrun. rewrite VerifierSpec.getHashKV_run in Hrun.
    destruct (HashKVReply env (length log) (firstEndpoint m) rev) as [err|r] eqn:Hrep;
      [discriminate|].
    destruct (Z.eqb_spec (HeaderRevision r) rev) as [Heq|Hne];
      cbn [negb] in Hrun; [|discriminate].
    destruct (IH _ _ _ _ Hwf Hrun) as (rs & -> & [Hlen Hrs] & ->).
    exists (r :: rs). split; [by rewrite <- app_assoc|]. split.
    + split; [simpl; by rewrite Hlen|].
      intros [|j] m' Hm'.
      * injection Hm' as <-. exists r. rewrite Nat.add_0_r. done.
      * destruct (Hrs j m' Hm') as (r' & Hr' & Hrep' & Hh).
        exists r'. split; [exact Hr'|]. split; [|exact Hh].
        rewrite length_app in Hrep'. simpl in Hrep'.
        replace (length log + S j)%nat with (length log + 1 + j)%nat by lia.
        exact Hrep'.
    + unfold memberProbes. simpl. by rewrite <- app_assoc.
Qed.

Lemma probeMembers_complete env rev : forall members hashKVs log rs,
  Forall (λ m, EndpointsGRPC m <> []) members ->
  repliesOf env members rev (length log) rs ->
  probeMembers env members rev hashKVs log
    = (Done (hashKVs ++ rs), log ++ memberProbes members rev (length members)).
Proof.
  induction members as [|m rest IH]; intros hashKVs log rs Hwf [Hlen Hrs].
  - destruct rs; [|discriminate]. unfold memberProbes. simpl.
    by rewrite !app_nil_r.
  - apply Forall_cons in Hwf as [Hm Hwf].
    destruct rs as [|r rs]; [discriminate|].
    destruct (Hrs 0%nat m eq_refl) as (r0 & [= <-] & Hrep & Hh).
    rewrite Nat.add_0_r in Hrep.
    cbn [probeMembers]. unfold bind at 1.
    rewrite (VerifierSpec.index0_head m log Hm).
    unfold bind at 1. rewrite VerifierSpec.getHashKV_run, Hrep.
    destruct (Z.eqb_spec (HeaderRevision r) rev) as [_|]; [|contradiction].
    cbn [negb]. rewrite (IH _ _ rs Hwf).
    + unfold memberProbes. simpl. by rewrite <- !app_assoc.
    + split; [simpl in Hlen; lia|]. intros j m' Hm'.
      destruct (Hrs (S j) m' Hm') as (r' & Hr' & Hrep' & Hh').
      exists r'. split; [exact Hr'|]. split; [|exact Hh'].
      rewrite length_app. simpl.
      replace (length log + 1 + j)%nat with (length log + S j)%nat by lia.
      exact Hrep'.
Qed.

Lemma repliesOf_unique env members rev base rs rs' :
  repliesOf env members rev base rs -> repliesOf env members rev base rs' ->
  rs = rs'.
Proof.
  intros [Hlen Hrs] [Hlen' Hrs']. apply list_eq. intros j.
  destruct (members !! j) as [m|] eqn:Hm.
  - destruct (Hrs j m Hm) as (r & -> & Hrep & _).
    destruct (Hrs' j m Hm) as (r' & -> & Hrep' & _). congruence.
  - apply lookup_ge_None in Hm.
    rewrite !(proj2 (lookup_ge_None _ _)) by lia. reflexivity.
Qed.

Lemma agree_refl a : agree a a.
Proof. by repeat split. Qed.

Lemma agree_sym a b : agree a b -> agree b a.
Proof. intros (? & ? & ?). by repeat split. Qed.

Lemma agree_trans a b c : agree a b -> agree b c -> agree a c.
Proof. intros (? & ? & ?) (? & ? & ?). repeat split; congruence. Qed.

(** Agreement of every reply with the one before it is agreement of any two
    replies. *)
Lemma adjacent_agree_all (rs : list HashKVResponse) :
  (forall j, (1 <= j < length rs)%nat ->
     exists a b, rs !! (j - 1)%nat = Some a /\ rs !! j = Some b /\ agree a b) <->
  (forall i j a b, rs !! i = Some a -> rs !! j = Some b -> agree a b).
Proof.
  split.
  - intros Hadj.
    assert (Hzero : forall j a0 b, rs !! 0%nat = Some a0 -> rs !! j = Some b ->
                                  agree a0 b).
    { induction j as [|j IHj]; intros a0 b H0 Hj.
      - assert (a0 = b) as -> by congruence. apply agree_refl.
      - pose proof (lookup_lt_Some _ _ _ Hj) as Hlt.
        destruct (Hadj (S j) ltac:(lia)) as (a & b' & Ha & Hb & Hag).
        replace (S j - 1)%nat with j in Ha by lia.
        assert (b' = b) as -> by congruence.
        eapply agree_trans; [|exact Hag]. by apply IHj. }
    intros i j a b Hi Hj.
    destruct (lookup_lt_is_Some_2 rs 0) as [a0 H0];
      [pose proof (lookup_lt_Some _ _ _ Hi); lia|].
    eapply agree_trans; [apply agree_sym|]; by eapply Hzero.
  - intros Hall j Hj.
    destruct (lookup_lt_is_Some_2 rs (j - 1)) as [a Ha]; [lia|].
    destruct (lookup_lt_is_Some_2 rs j) as [b Hb]; [lia|].
    exists a, b. split; [exact Ha|]. split; [exact Hb|]. by eapply Hall.
Qed.

(** X14: [CheckHashKV] called with a non-zero revision on a cluster whose members
    each expose an endpoint returns no error exactly when every member
    answers its probe with that revision in its header and any two members
    report the same [HashRevision], [CompactRevision] and [Hash]; it has
    then made one call per member, in order, at that revision. *)
Theorem CheckHashKV_nonzero_verdict
    (env : Env) (clus : EtcdProcessCluster) (rev : Z) :
  rev <> 0 ->
  NewClient env (ClusEndpointsGRPC clus) = None ->
  Forall (λ m, EndpointsGRPC m <> []) (Procs clus) ->
  ((CheckHashKV env clus rev []).1 = Done tt <->
   exists rs, repliesOf env (Procs clus) rev 0 rs /\
     forall i j a b, rs !! i = Some a -> rs !! j = Some b -> agree a b) /\
  ((CheckHashKV env clus rev []).1 = Done tt ->
   (CheckHashKV env clus rev []).2
     = memberProbes (Procs clus) rev (length (Procs clus))).
Proof.
  intros Hnz Hnew Hwf.
  assert (Hrun : CheckHashKV env clus rev [] =
    bind (probeMembers env (Procs clus) rev [])
         (fun hs l => (compareHashKVs (length (Procs clus)) hs, l)) []).
  { unfold CheckHashKV, resolveRevision. rewrite Hnew.
    destruct (Z.eqb_spec rev 0); [contradiction | reflexivity]. }
  rewrite Hrun. unfold bind.
  destruct (probeMembers env (Procs clus) rev [] []) as [[hs|e|] log1] eqn:Hp.
  - destruct (probeMembers_Done _ _ _ _ _ _ _ Hwf Hp) as (rs & -> & Hrs & ->).
    cbn [fst snd app]. split; [|reflexivity].
    pose proof (proj1 Hrs) as Hlen.
    rewrite (VerifierSpec.compareHashKVs_pairwise _ rs Hlen), <- Hlen.
    rewrite adjacent_agree_all. split.
    + intros Hall. exists rs. done.
    + intros (rs' & Hrs' & Hall).
      by rewrite (repliesOf_unique _ _ _ _ _ _ Hrs Hrs').
  - cbn [fst snd]. split; [|discriminate]. split; [discriminate|].
    intros (rs & Hrs & _).
    rewrite (probeMembers_complete env rev _ [] [] rs Hwf Hrs) in Hp.
    discriminate.
  - cbn [fst snd]. split; [|discriminate]. split; [discriminate|].
    intros (rs & Hrs & _).
    rewrite (probeMembers_complete env rev _ [] [] rs Hwf Hrs) in Hp.
    discriminate.
Qed.

Lemma CheckHashKV_nonzero_verdict_witness :
  (CheckHashKV allAgree cluster3 10 []).1 = Done tt <->
  exists rs, repliesOf allAgree (Procs cluster3) 10 0 rs /\
    forall i j a b, rs !! i = Some a -> rs !! j = Some b -> agree a b.
Proof.
  refine (proj1 (CheckHashKV_nonzero_verdict allAgree cluster3 10
                   _ eq_refl _)).
  - discriminate.
  - repeat constructor; discriminate.
Defined.

(** X15: when [CheckHashKV], called with a non-zero revision, returns an error
    of the comparison, every member had answered with the revision in its
    header, and the error names the first of [HashRevision],
    [CompactRevision], [Hash] that differs between the first member that
    disagrees with the member before it and that member. *)
Theorem CheckHashKV_nonzero_names_first_difference
    (env : Env) (clus : EtcdProcessCluster) (rev : Z) (e : error)
    (log : list Probe) :
  rev <> 0 ->
  NewClient env (ClusEndpointsGRPC clus) = None ->
  Forall (λ m, EndpointsGRPC m <> []) (Procs clus) ->
  CheckHashKV env clus rev [] = (Raise e, log) ->
  is_RPCFailure e = false ->
  exists rs j a b,
    repliesOf env (Procs clus) rev 0 rs /\
    (1 <= j < length (Procs clus))%nat /\
    rs !! (j - 1)%nat = Some a /\ rs !! j = Some b /\
    mismatch a b = Some e /\
    (forall j', (1 <= j' < j)%nat ->
       exists a' b', rs !! (j' - 1)%nat = Some a' /\ rs !! j' = Some b' /\
                     agree a' b').
Proof.
  intros Hnz Hnew Hwf Hrun Hf.
  unfold CheckHashKV, resolveRevision in Hrun. rewrite Hnew in Hrun.
  destruct (Z.eqb_spec rev 0) as [|_]; [contradiction|].
  unfold bind at 1 in Hrun. cbn [ret fst snd] in Hrun. unfold bind in Hrun.
  destruct (probeMembers env (Procs clus) rev [] []) as [[hs|e1|] log1] eqn:Hp.
  - destruct (probeMembers_Done _ _ _ _ _ _ _ Hwf Hp) as (rs & -> & Hrs & ->).
    cbn [app] in Hrun. injection Hrun as Hcmp _.
    pose proof (proj1 Hrs) as Hlen.
    unfold compareHashKVs in Hcmp.
    destruct (length (Procs clus)) as [|n] eqn:Hn; [discriminate|].
    pose proof (VerifierSpec.compareFrom_spec rs (S n - 1) 1
                  ltac:(lia) ltac:(lia)) as H.
    rewrite Hcmp in H. destruct H as (j & a & b & Hj & Ha & Hb & Hm & Hfirst).
    exists rs, j, a, b.
    split; [exact Hrs|]. split; [lia|]. done.
  - injection Hrun as <- _. exfalso.
    destruct (VerifierSpec.probeMembers_spec _ _ _ _ _ _ _ Hwf Hp)
      as (k & _ & _ & _ & j0 & m0 & _ & _ & He).
    destruct (HashKVReply env (length (@nil Probe) + j0) (firstEndpoint m0) rev);
      [subst e1 | destruct He as [_ ->]]; discriminate.
  - discriminate.
Qed.

Lemma CheckHashKV_nonzero_names_first_difference_witness :
  exists rs j a b,
    repliesOf lastMemberDiverges (Procs cluster3) 10 0 rs /\
    (1 <= j < length (Procs cluster3))%nat /\
    rs !! (j - 1)%nat = Some a /\ rs !! j = Some b /\
    mismatch a b = Some HashMismatch.
Proof.
  destruct (CheckHashKV_nonzero_names_first_difference lastMemberDiverges
              cluster3 10 HashMismatch
              [("m0"%string, 10); ("m1"%string, 10); ("m2"%string, 10)])
    as (rs & j & a & b & Hrs & Hj & Ha & Hb & Hm & _).
  - discriminate.
  - reflexivity.
  - repeat constructor; discriminate.
  - vm_compute. reflexivity.
  - reflexivity.
  - exists rs, j, a, b. done.
Defined.

End VerifierMore.

(** ** More on the [testing.T] verifier *)

Module VerifierTMore.
Import VerifierT.

Lemma callHashKV_run env ep rev log :
  requireNoError (callHashKV env ep rev) log =
  (match HashKVReply env (length log) ep rev with
   | inl err => Raise (NoErrorFailed err)
   | inr r => Done r
   end, log ++ [(ep, rev)]).
Proof.
  unfold requireNoError, mapErr, callHashKV.
  destruct (HashKVReply env (length log) ep rev); reflexivity.
Qed.

(** The loop over the endpoints of one client: it stops at the first call
    that fails, and otherwise appends one reply per endpoint, in order. *)
Lemma probeEndpoints_spec env rev : forall eps resp log out log',
  probeEndpoints env eps rev resp log = (out, log') ->
  match out with
  | Done rs =>
      exists new, rs = resp ++ new /\ length new = length eps /\
        log' = log ++ ((λ ep, (ep, rev)) <$> eps) /\
        forall j ep, eps !! j = Some ep ->
          exists r, new !! j = Some r /\
            HashKVReply env (length log + j) ep rev = inr r
  | Raise e => exists err, e = NoErrorFailed err
  | Panic => False
  end.
Proof.
  induction eps as [|ep eps IH]; intros resp log out log' Hrun.
  - injection Hrun as <- <-. exists []. rewrite !app_nil_r.
    repeat split. intros j ep Hj. discriminate.
  - cbn [probeEndpoints] in Hrun. unfold bind at 1 in Hrun.
    rewrite callHashKV_run in Hrun.
    destruct (HashKVReply env (length log) ep rev) as [err|r] eqn:Hrep.
    + injection Hrun as <- <-. by exists err.
    + specialize (IH _ _ _ _ Hrun). destruct out as [rs|e|]; [|exact IH..].
      destruct IH as (new & -> & Hlen & -> & Hnew).
      exists (r :: new). split; [by rewrite <- app_assoc|].
      split; [simpl; by rewrite Hlen|].
      split; [simpl; by rewrite <- app_assoc|].
      intros [|j] ep' Hj.
      * injection Hj as <-. exists r. rewrite Nat.add_0_r. done.
      * destruct (Hnew j ep' Hj) as (r' & Hr' & Hrep').
        exists r'. split; [exact Hr'|].
        rewrite length_app in Hrep'. simpl in Hrep'.
        replace (length log + S j)%nat with (length log + 1 + j)%nat by lia.
        exact Hrep'.
Qed.

(** The outcomes of [probeMember]. *)
Lemma probeMember_outcome
    (env : Env) (m : EtcdProcess) (rev : Z) (log log' : list Probe)
    (out : outcome failure HashKVResponse) :
  probeMember env m rev log = (out, log') ->
  match out with
  | Done r =>
      exists ep, EndpointsGRPC m = [ep] /\
        HashKVReply env (length log) ep rev = inr r /\
        log' = log ++ [(ep, rev)]
  | Raise (LenFailed k) =>
      k = length (EndpointsGRPC m) /\ k <> 1%nat /\
      log' = log ++ ((λ ep, (ep, rev)) <$> EndpointsGRPC m)
  | Raise (NoErrorFailed _) => True
  | Raise (EqualFailed _) => False
  | Panic => False
  end.
Proof.
  unfold probeMember, newClient. intros Hrun.
  destruct (NewClient env (EndpointsGRPC m)) as [err|].
  { unfold bind, raise in Hrun. injection Hrun as <- _. exact I. }
  unfold bind at 1 2 in Hrun. cbn [ret] in Hrun.
  destruct (probeEndpoints env (EndpointsGRPC m) rev [] log) as [o l1] eqn:Hp.
  pose proof (probeEndpoints_spec _ _ _ _ _ _ _ Hp) as Hs.
  destruct o as [rs|e|].
  - destruct Hs as (new & -> & Hlen & -> & Hnew). cbn [app] in Hrun.
    unfold bind, requireLen in Hrun.
    destruct (Nat.eqb_spec (length new) 1) as [H1|H1].
    + cbn [ret] in Hrun. unfold index0 in Hrun.
      destruct new as [|r [|? ?]]; try discriminate.
      destruct (EndpointsGRPC m) as [|ep [|? ?]] eqn:Heps; try discriminate.
      cbn in Hrun. injection Hrun as <- <-.
      destruct (Hnew 0%nat ep eq_refl) as (r' & [= <-] & Hrep).
      rewrite Nat.add_0_r in Hrep. exists ep. done.
    + unfold raise in Hrun. injection Hrun as <- <-.
      rewrite Hlen in *. done.
  - injection Hrun as <- _. destruct Hs as [err ->]. exact I.
  - contradiction.
Qed.

(** When every call succeeds, the loop over the endpoints returns one reply
    per endpoint after one call per endpoint. *)
Lemma probeEndpoints_all env rev : forall eps resp log,
  (forall j ep, eps !! j = Some ep ->
     exists r, HashKVReply env (length log + j) ep rev = inr r) ->
  exists rs,
    probeEndpoints env eps rev resp log
      = (Done (resp ++ rs), log ++ ((λ ep, (ep, rev)) <$> eps)) /\
    length rs = length eps.
Proof.
  induction eps as [|ep eps IH]; intros resp log Hall.
  - exists []. by rewrite !app_nil_r.
  - destruct (Hall 0%nat ep eq_refl) as [r Hr]. rewrite Nat.add_0_r in Hr.
    destruct (IH (resp ++ [r]) (log ++ [(ep, rev)])) as (rs & Hrun & Hlen).
    { intros j ep' Hj. destruct (Hall (S j) ep' Hj) as [r' Hr'].
      exists r'. rewrite length_app. simpl.
      replace (length log + 1 + j)%nat with (length log + S j)%nat by lia.
      exact Hr'. }
    exists (r :: rs). split; [|simpl; by rewrite Hlen].
    cbn [probeEndpoints]. unfold bind at 1. rewrite callHashKV_run, Hr, Hrun.
    simpl. by rewrite <- !app_assoc.
Qed.

(** At the first call that fails, the loop over the endpoints stops with
    that error, having made no further call. *)
Lemma probeEndpoints_first_failure env rev : forall eps resp log j ep err,
  eps !! j = Some ep ->
  HashKVReply env (length log + j) ep rev = inl err ->
  (forall j' ep', (j' < j)%nat -> eps !! j' = Some ep' ->
     exists r, HashKVReply env (length log + j') ep' rev = inr r) ->
  probeEndpoints env eps rev resp log
    = (Raise (NoErrorFailed err),
       log ++ ((λ ep, (ep, rev)) <$> take (S j) eps)).
Proof.
  induction eps as [|ep0 eps IH]; intros resp log j ep err Hj Herr Hbefore;
    [discriminate|].
  cbn [probeEndpoints]. unfold bind at 1. rewrite callHashKV_run.
  destruct j as [|j].
  - injection Hj as <-. rewrite Nat.add_0_r in Herr. rewrite Herr.
    simpl. by rewrite ?take_0.
  - destruct (Hbefore 0%nat ep0 ltac:(lia) eq_refl) as [r Hr].
    rewrite Nat.add_0_r in Hr. rewrite Hr.
    rewrite (IH (resp ++ [r]) (log ++ [(ep0, rev)]) j ep err Hj).
    + simpl. by rewrite <- !app_assoc.
    + rewrite length_app. simpl.
      replace (length log + 1 + j)%nat with (length log + S j)%nat by lia.
      exact Herr.
    + intros j' ep' Hj' Hep'.
      destruct (Hbefore (S j') ep' ltac:(lia) Hep') as [r' Hr'].
      exists r'. rewrite length_app. simpl.
      replace (length log + 1 + j')%nat with (length log + S j')%nat by lia.
      exact Hr'.
Qed.

(** X16: a member is accepted only with exactly one endpoint, and what
    [probeMember] does follows from the member and the replies alone. If
    [clientv3.New] fails it fails with that error and makes no call. If the
    client is created and the call to every endpoint succeeds, it makes one
    call per endpoint, in order, and then returns the reply when the member
    has exactly one endpoint and fails the length assertion, with the number
    of endpoints, when it has any other number. If the client is created and
    some call fails, it fails with the error of the first such call and
    makes no call after it. It never panics. *)
Theorem probeMember_single_endpoint
    (env : Env) (m : EtcdProcess) (rev : Z) (log log' : list Probe)
    (out : outcome failure HashKVResponse) :
  probeMember env m rev log = (out, log') ->
  match out with
  | Done r =>
      exists ep, EndpointsGRPC m = [ep] /\
        HashKVReply env (length log) ep rev = inr r /\
        log' = log ++ [(ep, rev)]
  | Raise (LenFailed k) =>
      k = length (EndpointsGRPC m) /\ k <> 1%nat /\
      log' = log ++ ((λ ep, (ep, rev)) <$> EndpointsGRPC m)
  | Raise (NoErrorFailed _) => True
  | Raise (EqualFailed _) => False
  | Panic => False
  end /\
  (forall err, NewClient env (EndpointsGRPC m) = Some err ->
     out = Raise (NoErrorFailed err) /\ log' = log) /\
  (NewClient env (EndpointsGRPC m) = None ->
   (forall j ep, EndpointsGRPC m !! j = Some ep ->
      exists r, HashKVReply env (length log + j) ep rev = inr r) ->
   log' = log ++ ((λ ep, (ep, rev)) <$> EndpointsGRPC m) /\
   (length (EndpointsGRPC m) <> 1%nat ->
      out = Raise (LenFailed (length (EndpointsGRPC m)))) /\
   (forall ep, EndpointsGRPC m = [ep] ->
      exists r, HashKVReply env (length log) ep rev = inr r /\ out = Done r)) /\
  (NewClient env (EndpointsGRPC m) = None ->
   forall j ep err,
     EndpointsGRPC m !! j = Some ep ->
     HashKVReply env (length log + j) ep rev = inl err ->
     (forall j' ep', (j' < j)%nat -> EndpointsGRPC m !! j' = Some ep' ->
        exists r, HashKVReply env (length log + j') ep' rev = inr r) ->
     out = Raise (NoErrorFailed err) /\
     log' = log ++ ((λ ep, (ep, rev)) <$> take (S j) (EndpointsGRPC m))).
Proof.
  intros Hrun. split; [exact (probeMember_outcome _ _ _ _ _ _ Hrun)|].
  pose proof (probeMember_outcome _ _ _ _ _ _ Hrun) as Hout.
  unfold probeMember, newClient in Hrun.
  split; [|split].
  - intros err Hnew. rewrite Hnew in Hrun. unfold bind, raise in Hrun.
    by injection Hrun as <- <-.
  - intros Hnew Hall. rewrite Hnew in Hrun.
    unfold bind at 1 2 in Hrun. cbn [ret] in Hrun.
    destruct (probeEndpoints_all env rev (EndpointsGRPC m) [] log Hall)
      as (rs & Hp & Hlen).
    rewrite Hp in Hrun. cbn [app] in Hrun. unfold bind, requireLen in Hrun.
    rewrite Hlen in Hrun.
    destruct (Nat.eqb_spec (length (EndpointsGRPC m)) 1) as [H1|H1].
    + cbn [ret] in Hrun. unfold index0 in Hrun.
      destruct rs as [|r [|? ?]]; try (simpl in Hlen; lia).
      cbn in Hrun. injection Hrun as <- <-.
      split; [reflexivity|]. split; [intros; lia|].
      intros ep Heps. destruct Hout as (ep' & Heps' & Hrep & _).
      assert (ep' = ep) as -> by congruence. by exists r.
    + unfold raise in Hrun. injection Hrun as <- <-.
      split; [reflexivity|]. split; [done|].
      intros ep Heps. rewrite Heps in H1. done.
  - intros Hnew j ep err Hj Herr Hbefore. rewrite Hnew in Hrun.
    unfold bind at 1 2 in Hrun. cbn [ret] in Hrun.
    rewrite (probeEndpoints_first_failure env rev _ [] log j ep err
               Hj Herr Hbefore) in Hrun.
    by injection Hrun as <- <-.
Qed.

(** A member with two endpoints. *)
Lemma probeMember_single_endpoint_witness :
  [("a"%string, 10); ("b"%string, 10)]
    = [] ++ ((λ ep, (ep, 10)) <$> ["a"; "b"]%string) /\
  (length ["a"; "b"]%string <> 1%nat ->
     Raise (A := HashKVResponse) (LenFailed 2)
       = Raise (LenFailed (length ["a"; "b"]%string))).
Proof.
  destruct (probeMember_single_endpoint allAgree (mkProc ["a"; "b"]%string) 10 []
              [("a"%string, 10); ("b"%string, 10)] (Raise (LenFailed 2)) eq_refl)
    as (_ & _ & Hall & _).
  destruct (Hall eq_refl) as (Hlog & Hlen & _).
  - intros j ep _. by exists agreed.
  - split; [exact Hlog | exact Hlen].
Defined.

Lemma probeMember_Done env m rev log r log' :
  probeMember env m rev log = (Done r, log') ->
  EndpointsGRPC m = [Verifier.firstEndpoint m] /\
  HashKVReply env (length log) (Verifier.firstEndpoint m) rev = inr r /\
  log' = log ++ [(Verifier.firstEndpoint m, rev)].
Proof.
  intros Hrun. pose proof (probeMember_outcome _ _ _ _ _ _ Hrun) as H.
  destruct H as (ep & Heps & Hrep & ->).
  unfold Verifier.firstEndpoint. rewrite Heps. done.
Qed.

Lemma firstPass_spec env rev : forall members i HashKVs mx log HashKVs' mx' log',
  firstPass env members i rev HashKVs mx log = (Done (HashKVs', mx'), log') ->
  log' = log ++ Verifier.memberProbes members rev (length members) /\
  mx <= mx' /\
  (forall j m, members !! j = Some m ->
     exists r, EndpointsGRPC m = [Verifier.firstEndpoint m] /\
       HashKVReply env (length log + j) (Verifier.firstEndpoint m) rev = inr r /\
       HeaderRevision r <= mx') /\
  (mx' = mx \/
   exists j m r, members !! j = Some m /\
     HashKVReply env (length log + j) (Verifier.firstEndpoint m) rev = inr r /\
     mx' = HeaderRevision r).
Proof.
  induction members as [|m rest IH]; intros i H mx log H' mx' log' Hrun.
  - injection Hrun as _ <- <-. unfold Verifier.memberProbes. simpl.
    rewrite app_nil_r. split; [reflexivity|]. split; [lia|].
    split; [intros j m Hm; discriminate | by left].
  - cbn [firstPass] in Hrun. unfold bind at 1 in Hrun.
    destruct (probeMember env m rev log) as [[r0|e|] l1] eqn:Hp;
      [|discriminate..].
    destruct (probeMember_Done _ _ _ _ _ _ Hp) as (Heps & Hrep & ->).
    destruct (IH _ _ _ _ _ _ _ Hrun) as (-> & Hmx & Hall & Hatt).
    assert (Hshift : forall j : nat,
      (length (log ++ [(Verifier.firstEndpoint m, rev)]) + j
       = length log + S j)%nat).
    { intros j. rewrite length_app. simpl. lia. }
    split; [unfold Verifier.memberProbes; simpl; by rewrite <- app_assoc|].
    split; [destruct (Z.ltb_spec mx (HeaderRevision r0)); lia|].
    split.
    + intros [|j] m' Hm'.
      * injection Hm' as <-. exists r0. rewrite Nat.add_0_r.
        split; [exact Heps|]. split; [exact Hrep|].
        destruct (Z.ltb_spec mx (HeaderRevision r0)); lia.
      * destruct (Hall j m' Hm') as (r & He & Hr & Hle).
        exists r. rewrite <- Hshift. done.
    + destruct Hatt as [-> | (j & m' & r & Hm' & Hr & ->)].
      * destruct (Z.ltb_spec mx (HeaderRevision r0)); [|by left].
        right. exists 0%nat, m, r0. rewrite Nat.add_0_r. done.
      * right. exists (S j), m', r. rewrite <- Hshift. done.
Qed.

Lemma secondPass_spec env rev : forall members i HashKVs log HashKVs' log',
  secondPass env members i rev HashKVs log = (Done HashKVs', log') ->
  log' = log ++ Verifier.memberProbes members rev (length members).
Proof.
  induction members as [|m rest IH]; intros i H log H' log' Hrun.
  - injection Hrun as _ <-. unfold Verifier.memberProbes. simpl.
    by rewrite app_nil_r.
  - cbn [secondPass] in Hrun. unfold bind at 1 in Hrun.
    destruct (probeMember env m rev log) as [[r0|e|] l1] eqn:Hp;
      [|discriminate..].
    destruct (probeMember_Done _ _ _ _ _ _ Hp) as (_ & _ & ->).
    rewrite (IH _ _ _ _ _ Hrun).
    unfold Verifier.memberProbes. simpl. by rewrite <- app_assoc.
Qed.

(** A round of probes fails on a call or on the number of endpoints, never
    on an equality. *)
Lemma firstPass_fails env rev : forall members i HashKVs mx log e log',
  firstPass env members i rev HashKVs mx log = (Raise e, log') ->
  match e with EqualFailed _ => False | _ => True end.
Proof.
  induction members as [|m rest IH]; intros i H mx l e l' Hs; [discriminate|].
  cbn [firstPass] in Hs. unfold bind at 1 in Hs.
  destruct (probeMember env m rev l) as [[r0|e0|] l1] eqn:Hp.
  - by eapply IH.
  - injection Hs as -> _.
    pose proof (probeMember_outcome _ _ _ _ _ _ Hp) as Hm.
    by destruct e.
  - discriminate.
Qed.

Lemma secondPass_fails env rev : forall members i HashKVs log e log',
  secondPass env members i rev HashKVs log = (Raise e, log') ->
  match e with EqualFailed _ => False | _ => True end.
Proof.
  induction members as [|m rest IH]; intros i H l e l' Hs; [discriminate|].
  cbn [secondPass] in Hs. unfold bind at 1 in Hs.
  destruct (probeMember env m rev l) as [[r0|e0|] l1] eqn:Hp.
  - by eapply IH.
  - injection Hs as -> _.
    pose proof (probeMember_outcome _ _ _ _ _ _ Hp) as Hm.
    by destruct e.
  - discriminate.
Qed.

(** The two rounds of probes of the [testing.T] verifier. *)
Lemma two_rounds
    (env : Env) (clus : EtcdProcessCluster) (rev : Z)
    (out : outcome failure unit) (log : list Probe) :
  CheckHashKV env clus rev [] = (out, log) ->
  match out with
  | Done _ | Raise (EqualFailed _) => True
  | _ => False
  end ->
  exists mx,
    log = Verifier.memberProbes (Procs clus) rev (length (Procs clus))
          ++ Verifier.memberProbes (Procs clus) mx (length (Procs clus)) /\
    0 <= mx /\
    (forall j m, Procs clus !! j = Some m ->
       exists r, EndpointsGRPC m = [Verifier.firstEndpoint m] /\
         HashKVReply env j (Verifier.firstEndpoint m) rev = inr r /\
         HeaderRevision r <= mx) /\
    (mx = 0 \/
     exists j m r, Procs clus !! j = Some m /\
       HashKVReply env j (Verifier.firstEndpoint m) rev = inr r /\
       mx = HeaderRevision r).
Proof.
  unfold CheckHashKV. cbv zeta. unfold bind. intros Hrun Hout.
  destruct (firstPass env (Procs clus) 0 rev
              (replicate (length (Procs clus)) None) 0 [])
    as [[[H1 mx]|e|] l1] eqn:H1p.
  - destruct (firstPass_spec _ _ _ _ _ _ _ _ _ _ H1p) as (-> & Hmx & Hall & Hatt).
    cbn [fst snd app] in Hrun.
    destruct (secondPass env (Procs clus) 0 mx H1 _) as [[H2|e|] l2] eqn:H2p.
    + rewrite (secondPass_spec _ _ _ _ _ _ _ _ H2p) in Hrun.
      injection Hrun as _ <-. exists mx. done.
    + injection Hrun as <- _. exfalso.
      pose proof (secondPass_fails _ _ _ _ _ _ _ _ H2p).
      destruct e; done.
    + injection Hrun as <- _. contradiction.
  - injection Hrun as <- _. exfalso.
    pose proof (firstPass_fails _ _ _ _ _ _ _ _ _ H1p).
    destruct e; done.
  - injection Hrun as <- _. contradiction.
Qed.

(** X17: the revision given to the [testing.T] verifier serves the first round
    only. Whenever it gets as far as comparing, it has probed every member
    once at the revision given and then once more at the largest header
    revision of the first round (0 if none is positive), and every member
    has exactly one endpoint. *)
Theorem CheckHashKV_T_two_rounds
    (env : Env) (clus : EtcdProcessCluster) (rev : Z)
    (out : outcome failure unit) (log : list Probe) :
  CheckHashKV env clus rev [] = (out, log) ->
  match out with
  | Done _ | Raise (EqualFailed _) => True
  | _ => False
  end ->
  exists mx,
    log = Verifier.memberProbes (Procs clus) rev (length (Procs clus))
          ++ Verifier.memberProbes (Procs clus) mx (length (Procs clus)) /\
    0 <= mx /\
    (forall j m, Procs clus !! j = Some m ->
       exists r, EndpointsGRPC m = [Verifier.firstEndpoint m] /\
         HashKVReply env j (Verifier.firstEndpoint m) rev = inr r /\
         HeaderRevision r <= mx) /\
    (mx = 0 \/
     exists j m r, Procs clus !! j = Some m /\
       HashKVReply env j (Verifier.firstEndpoint m) rev = inr r /\
       mx = HeaderRevision r).
Proof. apply two_rounds. Qed.

Lemma CheckHashKV_T_two_rounds_witness :
  exists mx,
    [("m0", 5); ("m1", 5); ("m2", 5); ("m0", 10); ("m1", 10); ("m2", 10)]%string
    = Verifier.memberProbes (Procs cluster3) 5 (length (Procs cluster3))
      ++ Verifier.memberProbes (Procs cluster3) mx (length (Procs cluster3)) /\
    0 <= mx.
Proof.
  destruct (CheckHashKV_T_two_rounds allAgree cluster3 5 (Done tt)
              [("m0", 5); ("m1", 5); ("m2", 5);
               ("m0", 10); ("m1", 10); ("m2", 10)]%string)
    as (mx & Hlog & Hmx & _).
  - vm_compute. reflexivity.
  - exact I.
  - exists mx. split; [exact Hlog | exact Hmx].
Defined.

(** *** When every call succeeds *)

Lemma probeMember_ok env m rev log :
  NewClient env (EndpointsGRPC m) = None ->
  length (EndpointsGRPC m) = 1%nat ->
  (forall k ep rv, exists r, HashKVReply env k ep rv = inr r) ->
  exists r log', probeMember env m rev log = (Done r, log').
Proof.
  intros Hnew Hlen Hall. unfold probeMember, newClient. rewrite Hnew.
  unfold bind at 1 2. cbn [ret].
  destruct (probeEndpoints_all env rev (EndpointsGRPC m) [] log)
    as (rs & -> & Hrs); [intros j ep _; apply Hall|].
  cbn [app]. unfold bind, requireLen. rewrite Hrs, Hlen. cbn [Nat.eqb ret].
  destruct rs as [|r rs]; [simpl in Hrs; lia|].
  unfold index0. cbn. by exists r, (log ++ ((λ ep, (ep, rev)) <$> EndpointsGRPC m)).
Qed.

Lemma firstPass_ok env rev : forall members i HashKVs mx log,
  Forall (λ m, NewClient env (EndpointsGRPC m) = None /\
               length (EndpointsGRPC m) = 1%nat) members ->
  (forall k ep rv, exists r, HashKVReply env k ep rv = inr r) ->
  exists HashKVs' mx' log',
    firstPass env members i rev HashKVs mx log = (Done (HashKVs', mx'), log') /\
    length HashKVs' = length HashKVs.
Proof.
  induction members as [|m rest IH]; intros i H mx log Hwf Hall.
  - by exists H, mx, log.
  - apply Forall_cons in Hwf as [[Hnew Hlen] Hwf].
    destruct (probeMember_ok env m rev log Hnew Hlen Hall) as (r & l1 & Hp).
    cbn [firstPass]. unfold bind at 1. rewrite Hp.
    destruct (IH (S i) (<[i:=Some r]> H)
                (if mx <? HeaderRevision r then HeaderRevision r else mx)
                l1 Hwf Hall) as (H' & mx' & l' & -> & Hl).
    exists H', mx', l'. split; [reflexivity|]. by rewrite Hl, length_insert.
Qed.

Lemma secondPass_ok env rev : forall members i HashKVs log,
  Forall (λ m, NewClient env (EndpointsGRPC m) = None /\
               length (EndpointsGRPC m) = 1%nat) members ->
  (forall k ep rv, exists r, HashKVReply env k ep rv = inr r) ->
  (i + length members <= length HashKVs)%nat ->
  (forall j, (j < i)%nat -> exists r, HashKVs !! j = Some (Some r)) ->
  exists HashKVs' log',
    secondPass env members i rev HashKVs log = (Done HashKVs', log') /\
    length HashKVs' = length HashKVs /\
    (forall j, (j < i + length members)%nat ->
       exists r, HashKVs' !! j = Some (Some r)).
Proof.
  induction members as [|m rest IH]; intros i H log Hwf Hall Hlen Hset.
  - exists H, log. split; [reflexivity|]. split; [reflexivity|].
    intros j Hj. apply Hset. simpl in Hj. lia.
  - apply Forall_cons in Hwf as [[Hnew Hl1] Hwf]. simpl in Hlen.
    destruct (probeMember_ok env m rev log Hnew Hl1 Hall) as (r & l1 & Hp).
    cbn [secondPass]. unfold bind at 1. rewrite Hp.
    destruct (IH (S i) (<[i:=Some r]> H) l1 Hwf Hall) as (H' & l' & -> & Hl & Hs).
    + rewrite length_insert. lia.
    + intros j Hj. destruct (decide (j = i)) as [->|Hne].
      * exists r. apply list_lookup_insert_eq. lia.
      * rewrite list_lookup_insert_ne by done. apply Hset. lia.
    + exists H', l'. split; [reflexivity|].
      split; [by rewrite Hl, length_insert|].
      intros j Hj. apply Hs. simpl in Hj. lia.
Qed.

Lemma compareFrom_reached (HashKVs : list (option HashKVResponse)) :
  forall iters i,
  (1 <= i)%nat -> (i + iters <= length HashKVs)%nat ->
  (forall j, (j < length HashKVs)%nat -> exists r, HashKVs !! j = Some (Some r)) ->
  match compareFrom HashKVs i iters with
  | Done _ | Raise (EqualFailed _) => True
  | _ => False
  end.
Proof.
  induction iters as [|iters IH]; intros i Hi Hlen Hset; [exact I|].
  cbn [compareFrom]. unfold deref.
  destruct (Hset (i - 1)%nat ltac:(lia)) as [a ->].
  destruct (Hset i ltac:(lia)) as [b ->].
  destruct (Hset 1%nat ltac:(lia)) as [c ->].
  unfold requireEqual.
  repeat match goal with |- context [if ?t then _ else _] => destruct t end;
    try exact I.
  apply IH; [lia | lia | exact Hset].
Qed.

(** On a cluster whose members each have one endpoint, with every client
    created and every call answered, the [testing.T] verifier reaches its
    comparison. *)
Lemma comparison_reached env (clus : EtcdProcessCluster) rev outT logT :
  VerifierT.CheckHashKV env clus rev [] = (outT, logT) ->
  Forall (λ m, NewClient env (EndpointsGRPC m) = None /\
               length (EndpointsGRPC m) = 1%nat) (Procs clus) ->
  (forall k ep rv, exists r, HashKVReply env k ep rv = inr r) ->
  match outT with
  | Done _ | Raise (EqualFailed _) => True
  | _ => False
  end.
Proof.
  unfold CheckHashKV. cbv zeta. unfold bind. intros Hrun Hwf Hall.
  destruct (firstPass_ok env rev (Procs clus) 0
              (replicate (length (Procs clus)) None) 0 [] Hwf Hall)
    as (H1 & mx & l1 & Hp1 & Hl1).
  rewrite Hp1 in Hrun. cbn [fst snd] in Hrun.
  rewrite length_replicate in Hl1.
  destruct (secondPass_ok env mx (Procs clus) 0 H1 l1 Hwf Hall)
    as (H2 & l2 & Hp2 & Hl2 & Hs2).
  { simpl. lia. }
  { intros j Hj. lia. }
  rewrite Hp2 in Hrun. injection Hrun as <- _.
  destruct (length (Procs clus)) as [|n] eqn:Hn; [exact I|].
  apply compareFrom_reached.
  - lia.
  - rewrite Hl2, Hl1. lia.
  - intros j Hj. apply Hs2. rewrite Hl2, Hl1 in Hj. simpl. lia.
Qed.

End VerifierTMore.

(** ** The fixed revision, by variant of the verifier *)

Module VerifierVariants.

(** C5, as stated, fails for the [testing.T] verifier of kvhash.go. Asked
    for revision 5 on three members that are all at revision 10, it does not
    keep to revision 5, since its second round is at revision 10; and no
    reply whose header revision differs from the revision asked makes it
    fail: it passes. *)
Lemma CheckHashKV_T_no_header_check :
  ~ (forall env clus rev out log,
       rev <> 0 ->
       VerifierT.CheckHashKV env clus rev [] = (out, log) ->
       Forall (λ p : Probe, p.2 = rev) log) /\
  ~ (forall env clus rev out log,
       rev <> 0 ->
       VerifierT.CheckHashKV env clus rev [] = (out, log) ->
       forall j ep r, log !! j = Some (ep, rev) ->
         HashKVReply env j ep rev = inr r ->
         HeaderRevision r <> rev ->
         exists e, out = Raise e).
Proof.
  split; intros H.
  - specialize (H allAgree cluster3 5 _ _ ltac:(discriminate) eq_refl).
    apply Forall_lookup_1 with (i := 3%nat) (x := ("m0"%string, 10)) in H;
      [discriminate | reflexivity].
  - destruct (H allAgree cluster3 5 _ _ ltac:(discriminate) eq_refl
                0%nat "m0"%string agreed eq_refl eq_refl ltac:(discriminate))
      as [e He].
    discriminate.
Qed.

(** C5, amended. The error-returning [CheckHashKV], on a cluster whose
    members each expose an endpoint: called with revision 0 it first sends
    one probe, at revision 0, to the first endpoint of the cluster, and fixes
    the revision to the header revision of the reply; called with a non-zero
    revision it keeps that revision. It then probes the members in order at
    the fixed revision, every one of them unless a probe stops the pass: the
    first member whose call fails, or whose header revision is not the fixed
    one, ends the pass at once with that error, before any comparison; a
    result of the comparison is returned only after every member replied with
    the fixed revision in its header. The [testing.T] [CheckHashKV] of
    kvhash.go does otherwise: whenever it reaches its comparison it has
    probed every member at the revision given and then every member again at
    the largest header revision of the first round (0 if none is positive),
    and it compares no header revision with the revision asked; it does
    reach its comparison whenever every member has one endpoint, every
    client is created and every call is answered. *)
Theorem CheckHashKV_fixed_revision_by_variant
    (env : Env) (clus : EtcdProcessCluster) (rev : Z) (ep0 : string)
    (out : outcome Verifier.error unit) (log : list Probe)
    (outT : outcome VerifierT.failure unit) (logT : list Probe) :
  NewClient env (ClusEndpointsGRPC clus) = None ->
  (rev = 0 -> ClusEndpointsGRPC clus !! 0%nat = Some ep0) ->
  Forall (λ m, EndpointsGRPC m <> []) (Procs clus) ->
  Verifier.CheckHashKV env clus rev [] = (out, log) ->
  VerifierT.CheckHashKV env clus rev [] = (outT, logT) ->
  (exists (fixed : Z) (pre : list Probe) (k : nat),
     log = pre ++ Verifier.memberProbes (Procs clus) fixed k /\
     (k <= length (Procs clus))%nat /\
     (if rev =? 0 then
        pre = [(ep0, 0)] /\
        match HashKVReply env 0 ep0 0 with
        | inr r0 => fixed = HeaderRevision r0
        | inl err => out = Raise (Verifier.RPCError err) /\ k = 0%nat
        end
      else pre = [] /\ fixed = rev) /\
     ((rev = 0 /\ exists err, HashKVReply env 0 ep0 0 = inl err) \/
      (k = length (Procs clus) /\
       (forall j, (j < length (Procs clus))%nat ->
          Verifier.caughtUp env (Procs clus) fixed (length pre) j) /\
       (out = Done tt \/
        exists e, out = Raise e /\ Verifier.is_RPCFailure e = false)) \/
      (exists j m, k = S j /\ Procs clus !! j = Some m /\
         (forall j', (j' < j)%nat ->
            Verifier.caughtUp env (Procs clus) fixed (length pre) j') /\
         match HashKVReply env (length pre + j) (Verifier.firstEndpoint m) fixed with
         | inl err => out = Raise (Verifier.RPCError err)
         | inr r =>
             HeaderRevision r <> fixed /\
             out = Raise (Verifier.MaxRevisionMismatch fixed (HeaderRevision r))
         end)) /\
     (forall j m r, (j < k)%nat -> Procs clus !! j = Some m ->
        HashKVReply env (length pre + j) (Verifier.firstEndpoint m) fixed = inr r ->
        HeaderRevision r <> fixed ->
        out = Raise (Verifier.MaxRevisionMismatch fixed (HeaderRevision r)) /\
        k = S j) /\
     out <> Panic) /\
  (match outT with
   | Done _ | Raise (VerifierT.EqualFailed _) => True
   | _ => False
   end ->
   exists mx,
     logT = Verifier.memberProbes (Procs clus) rev (length (Procs clus))
            ++ Verifier.memberProbes (Procs clus) mx (length (Procs clus)) /\
     0 <= mx /\
     (forall j m, Procs clus !! j = Some m ->
        exists r, EndpointsGRPC m = [Verifier.firstEndpoint m] /\
          HashKVReply env j (Verifier.firstEndpoint m) rev = inr r /\
          HeaderRevision r <= mx) /\
     (mx = 0 \/
      exists j m r, Procs clus !! j = Some m /\
        HashKVReply env j (Verifier.firstEndpoint m) rev = inr r /\
        mx = HeaderRevision r)) /\
  (Forall (λ m, NewClient env (EndpointsGRPC m) = None /\
                length (EndpointsGRPC m) = 1%nat) (Procs clus) ->
   (forall k ep rv, exists r, HashKVReply env k ep rv = inr r) ->
   match outT with
   | Done _ | Raise (VerifierT.EqualFailed _) => True
   | _ => False
   end).
Proof.
  intros Hnew Hep Hwf Hrun HrunT. split; [|split].
  - destruct (VerifierSpec.CheckHashKV_probe_cases env clus rev ep0 out log
                Hnew Hep Hwf Hrun)
      as (fixed & pre & k & Hlog & Hk & Hfix & Hcases & Hnp).
    exists fixed, pre, k.
    split; [exact Hlog|]. split; [exact Hk|]. split; [exact Hfix|].
    split; [exact Hcases|]. split; [|exact Hnp].
    intros j m r Hj Hm Hr Hne.
    assert (Hnot : ~ Verifier.caughtUp env (Procs clus) fixed (length pre) j).
    { intros (m' & r' & Hm' & Hr' & Hh). congruence. }
    destruct Hcases as [[-> [err Herr]] | [(-> & Hall & _) | (j0 & m0 & -> & Hm0 & Hbefore & Hlast)]].
    + exfalso. cbn [Z.eqb] in Hfix. rewrite Herr in Hfix.
      destruct Hfix as (_ & _ & ->). lia.
    + exfalso. apply Hnot, Hall. exact Hj.
    + destruct (decide (j = j0)) as [->|Hneq].
      * assert (m0 = m) as -> by congruence.
        rewrite Hr in Hlast. destruct Hlast as [_ ->]. done.
      * exfalso. apply Hnot, Hbefore. lia.
  - intros HoutT. exact (VerifierTMore.two_rounds env clus rev outT logT HrunT HoutT).
  - intros HwfT Hall.
    exact (VerifierTMore.comparison_reached env clus rev outT logT HrunT HwfT Hall).
Qed.

Lemma CheckHashKV_fixed_revision_by_variant_witness :
  (exists (fixed : Z) (pre : list Probe) (k : nat),
     [("m0"%string, 10); ("m1"%string, 10)]
       = pre ++ Verifier.memberProbes (Procs cluster3) fixed k /\
     (pre = [] /\ fixed = 10)) /\
  (exists mx,
     [("m0", 10); ("m1", 10); ("m2", 10); ("m0", 10); ("m1", 10); ("m2", 10)]%string
     = Verifier.memberProbes (Procs cluster3) 10 (length (Procs cluster3))
       ++ Verifier.memberProbes (Procs cluster3) mx (length (Procs cluster3))).
Proof.
  destruct (CheckHashKV_fixed_revision_by_variant secondMemberBehind cluster3 10
              "m0" (Raise (Verifier.MaxRevisionMismatch 10 9))
              [("m0"%string, 10); ("m1"%string, 10)]
              (Raise (VerifierT.EqualFailed "HashRevision mismatch"))
              [("m0", 10); ("m1", 10); ("m2", 10);
               ("m0", 10); ("m1", 10); ("m2", 10)]%string)
    as [(fixed & pre & k & Hlog & _ & Hfix & _) [HT _]].
  - reflexivity.
  - intros _. reflexivity.
  - repeat constructor; discriminate.
  - vm_compute. reflexivity.
  - vm_compute. reflexivity.
  - split.
    + exists fixed, pre, k. split; [exact Hlog | exact Hfix].
    + destruct (HT I) as (mx & HlogT & _). exists mx. exact HlogT.
Defined.

End VerifierVariants.
